(** * Beam Studio: the statics engine of [streamlit_app.py]

    A shallow embedding of [validate_inputs], of the three "Add load"
    handlers and of [calculate_analysis], followed by the properties the
    specification states about them.

    Numbers.  The program computes on Python floats and, inside the sampling
    loop, on [numpy.float64] scalars.  The embedding is written once, over an
    interface [Num] of the arithmetic the code uses, and is instantiated
    twice:
    - at [Qc], the canonical rationals: exact arithmetic, in which the
      algebraic properties are proved (rounding is absent there);
    - at [float], IEEE binary64 as Python has it, in which the code is
      evaluated where rounding matters.

    Faults.  A Python float divided by a zero float raises
    [ZeroDivisionError], which ends the analysis; a [numpy.float64] divided
    by zero gives [inf] or [nan] with a warning, and the loop goes on.  The
    first is the outcome [Raise], the second the sample [NonFinite].

    Loads are the dictionaries the handlers build, one constructor per
    ["type"]; the support type is the string the page passes, and every
    string other than ["Cantilever"] is treated as simply supported. *)

From Stdlib Require Import ZArith QArith Qcanon Qcabs Floats.
From Stdlib Require Import List String Bool Permutation Lia Lqa.
Import ListNotations.

Set Implicit Arguments.

(** ** Exceptions *)

Inductive exn : Set := ZeroDivisionError | TypeError | IndexError.

Inductive res (A : Type) : Type :=
| Ret (a : A)
| Raise (e : exn).

Arguments Ret {A} a.
Arguments Raise {A} e.

Definition bind {A B : Type} (c : res A) (k : A -> res B) : res B :=
  match c with
  | Ret a => k a
  | Raise e => Raise e
  end.

Notation "x <- c ;; k" := (bind c (fun x => k))
  (at level 61, c at next level, right associativity).
Notation "' p <- c ;; k" := (bind c (fun p => k))
  (at level 61, p pattern, c at next level, right associativity).

(** A [for] loop whose body may raise: the first exception ends the loop. *)
Fixpoint foldM {A B : Type} (f : A -> B -> res A) (l : list B) (a : A) : res A :=
  match l with
  | [] => Ret a
  | b :: l' => a' <- f a b ;; foldM f l' a'
  end.

Fixpoint mapM {A B : Type} (f : A -> res B) (l : list A) : res (list B) :=
  match l with
  | [] => Ret []
  | a :: l' => b <- f a ;; bs <- mapM f l' ;; Ret (b :: bs)
  end.

(** ** The arithmetic the program uses *)

Class Num (T : Type) : Type := {
  fromZ : Z -> T;          (* an integer literal, as a float *)
  half : T;                (* the literal 0.5 *)
  add : T -> T -> T;
  sub : T -> T -> T;
  mul : T -> T -> T;
  quot : T -> T -> T;      (* the quotient by a divisor that is not zero *)
  absn : T -> T;
  ltb : T -> T -> bool;
  leb : T -> T -> bool;
  eqb : T -> T -> bool
}.

Declare Scope num_scope.
Delimit Scope num_scope with num.
Infix "+" := add : num_scope.
Infix "-" := sub : num_scope.
Infix "*" := mul : num_scope.
Infix "/" := quot : num_scope.
Infix "<?" := ltb : num_scope.
Infix "<=?" := leb : num_scope.
Infix "=?" := eqb : num_scope.

(** Exact arithmetic. *)
Definition Qc_ltb (a b : Qc) : bool :=
  match Qccompare a b with Lt => true | _ => false end.
Definition Qc_leb (a b : Qc) : bool :=
  match Qccompare a b with Gt => false | _ => true end.
Definition Qc_eqb (a b : Qc) : bool :=
  match Qccompare a b with Eq => true | _ => false end.

#[global] Instance Qc_Num : Num Qc := {|
  fromZ := fun z => Q2Qc (inject_Z z);
  half := Q2Qc (1 # 2);
  add := Qcplus;
  sub := Qcminus;
  mul := Qcmult;
  quot := Qcdiv;
  absn := Qcabs;
  ltb := Qc_ltb;
  leb := Qc_leb;
  eqb := Qc_eqb
|}.

(** IEEE binary64. *)
Definition float_of_Z (z : Z) : float :=
  match z with
  | Z0 => PrimFloat.of_uint63 (Uint63.of_Z 0)
  | Zpos _ => PrimFloat.of_uint63 (Uint63.of_Z z)
  | Zneg p => PrimFloat.opp (PrimFloat.of_uint63 (Uint63.of_Z (Zpos p)))
  end.

#[global] Instance float_Num : Num float := {|
  fromZ := float_of_Z;
  half := 0.5%float;
  add := PrimFloat.add;
  sub := PrimFloat.sub;
  mul := PrimFloat.mul;
  quot := PrimFloat.div;
  absn := PrimFloat.abs;
  ltb := PrimFloat.ltb;
  leb := PrimFloat.leb;
  eqb := PrimFloat.eqb
|}.

Section Engine.

Context {T : Type} `{NumT : Num T}.
Local Open Scope string_scope.
Local Open Scope num_scope.

(** Python's [a / b] on floats. *)
Definition truediv (a b : T) : res T :=
  if b =? fromZ 0 then Raise ZeroDivisionError else Ret (a / b).

(** Python's [min(a, b)]: the first argument unless the second is smaller. *)
Definition pymin (a b : T) : T := if b <? a then b else a.

(** ** Values a form field may hold *)

Inductive pyval : Type :=
| PyNum (x : T)
| PyStr (s : string)
| PyNone.

(** Ordering a value against a number: a [TypeError] unless it is a number. *)
Definition as_num (v : pyval) : res T :=
  match v with
  | PyNum x => Ret x
  | _ => Raise TypeError
  end.

(** [args[i]] *)
Definition arg (args : list pyval) (i : nat) : res pyval :=
  match nth_error args i with
  | Some v => Ret v
  | None => Raise IndexError
  end.

(** The messages of [validate_inputs]; the formatted ones keep the values
    that the f-string prints. *)
Inductive Msg : Type :=
| NoMsg                              (* "" *)
| BeamLengthMsg                      (* "Beam length must be positive." *)
| LocationMsg (loc L : pyval)        (* f"Location {loc}m is outside beam (0-{L}m)." *)
| RangeMsg (s e L : pyval)           (* f"Range {s}-{e}m is outside beam (0-{L}m)." *)
| SamePointMsg                       (* "Start and End cannot be the same point." *)
| InvalidNumericMsg.                 (* "Invalid numeric input." *)

(** The text of a message, given how a value prints. *)
Definition msg_text (fmt : pyval -> string) (m : Msg) : string :=
  match m with
  | NoMsg => ""
  | BeamLengthMsg => "Beam length must be positive."
  | LocationMsg loc L =>
      "Location " ++ fmt loc ++ "m is outside beam (0-" ++ fmt L ++ "m)."
  | RangeMsg s e L =>
      "Range " ++ fmt s ++ "-" ++ fmt e ++ "m is outside beam (0-" ++ fmt L ++ "m)."
  | SamePointMsg => "Start and End cannot be the same point."
  | InvalidNumericMsg => "Invalid numeric input."
  end.

(** The program reports a rejection by its message alone.  The
    specification names the rejections by kind; this is the correspondence. *)
Inductive ErrKind : Set :=
| InvalidSpan | OutOfBounds | DegenerateRange | DegenerateSupportSpan | InvalidInput.

Definition kind_of (m : Msg) : option ErrKind :=
  match m with
  | NoMsg => None
  | BeamLengthMsg => Some InvalidSpan
  | LocationMsg _ _ => Some OutOfBounds
  | RangeMsg _ _ _ => Some OutOfBounds
  | SamePointMsg => Some DegenerateRange
  | InvalidNumericMsg => Some InvalidInput
  end.

(** ** [validate_inputs] *)

(** The body of the [try]. *)
Definition validate_body (load_type : string) (L : pyval) (args : list pyval)
  : res (bool * Msg) :=
  l <- as_num L ;;                                   (* L <= 0 *)
  if l <=? fromZ 0 then Ret (false, BeamLengthMsg) else
  if String.eqb load_type "POINT" then
    loc <- arg args 0 ;;
    x <- as_num loc ;;                               (* loc < 0 *)
    if (x <? fromZ 0) || (l <? x) then Ret (false, LocationMsg loc L)
    else Ret (true, NoMsg)
  else if String.eqb load_type "UDL" || String.eqb load_type "UVL" then
    s <- arg args 0 ;;
    e <- arg args 1 ;;
    sx <- as_num s ;;                                (* s < 0 *)
    if sx <? fromZ 0 then Ret (false, RangeMsg s e L) else
    ex <- as_num e ;;                                (* e > L *)
    if l <? ex then Ret (false, RangeMsg s e L) else
    if sx =? ex then Ret (false, SamePointMsg) else
    Ret (true, NoMsg)
  else Ret (true, NoMsg).

(** [try: ... except: return False, "Invalid numeric input."] *)
Definition validate_inputs (load_type : string) (L : pyval) (args : list pyval)
  : bool * Msg :=
  match validate_body load_type L args with
  | Ret r => r
  | Raise _ => (false, InvalidNumericMsg)
  end.

(** ** Loads *)

(** The dictionaries the handlers append to [loads_list], by their ["type"]. *)
Inductive Load : Type :=
| POINT (mag loc : T)
| UDL (mag start end_ : T)
| UVL (start_mag end_mag start end_ : T).

(** ** The "Add load" handlers *)

(** [if us > ue: us, ue = ue, us] *)
Definition swap_udl (se : T * T) : T * T :=
  let '(us, ue) := se in
  if ue <? us then (ue, us) else (us, ue).

(** [if vs > ve: vs, ve = ve, vs; vm1, vm2 = vm2, vm1] *)
Definition swap_uvl (u : T * T * T * T) : T * T * T * T :=
  let '(vm1, vm2, vs, ve) := u in
  if ve <? vs then (vm2, vm1, ve, vs) else (vm1, vm2, vs, ve).

(** Each handler returns the new [loads_list] and the message shown by
    [st.error], if any. *)
Definition add_point (L pm pl : T) (loads_list : list Load)
  : list Load * option Msg :=
  let '(valid, msg) := validate_inputs "POINT" (PyNum L) [PyNum pl] in
  if valid then ((loads_list ++ [POINT pm pl])%list, None) else (loads_list, Some msg).

Definition add_udl (L um us ue : T) (loads_list : list Load)
  : list Load * option Msg :=
  let '(us, ue) := swap_udl (us, ue) in
  let '(valid, msg) := validate_inputs "UDL" (PyNum L) [PyNum us; PyNum ue] in
  if valid then ((loads_list ++ [UDL um us ue])%list, None) else (loads_list, Some msg).

Definition add_uvl (L vm1 vm2 vs ve : T) (loads_list : list Load)
  : list Load * option Msg :=
  let '(vm1, vm2, vs, ve) := swap_uvl (vm1, vm2, vs, ve) in
  let '(valid, msg) := validate_inputs "UVL" (PyNum L) [PyNum vs; PyNum ve] in
  if valid then ((loads_list ++ [UVL vm1 vm2 vs ve])%list, None)
  else (loads_list, Some msg).

(** ** [calculate_analysis]: the reactions (lines 42-58) *)

(** One turn of the first loop, on the pair [(m_sum, f_sum)]. *)
Definition add_load (SupA : T) (acc : T * T) (l : Load) : T * T :=
  let '(m_sum, f_sum) := acc in
  match l with
  | POINT mag loc =>
      let f := mag in
      (m_sum + f * (loc - SupA), f_sum + f)
  | UDL mag start end_ =>
      let length := end_ - start in
      let f := mag * length in
      (m_sum + f * (start + length / fromZ 2 - SupA), f_sum + f)
  | UVL start_mag end_mag start end_ =>
      let w1 := start_mag in
      let w2 := end_mag in
      let length := end_ - start in
      let f1 := pymin w1 w2 * length in
      let f2 := half * absn (w2 - w1) * length in
      let c1 := start + length / fromZ 2 - SupA in
      let c2 := if w1 <? w2
                then start + (fromZ 2 / fromZ 3) * length - SupA
                else start + (fromZ 1 / fromZ 3) * length - SupA in
      (m_sum + (f1 * c1 + f2 * c2), f_sum + (f1 + f2))
  end.

Definition load_sums (SupA : T) (loads : list Load) : T * T :=
  fold_left (add_load SupA) loads (fromZ 0, fromZ 0).

(** The triple [(Ra, Rb, Ma)]. *)
Definition reactions (SupA SupB : T) (b_type : string) (loads : list Load)
  : res (T * T * T) :=
  let '(m_sum, f_sum) := load_sums SupA loads in
  if String.eqb b_type "Cantilever" then Ret (f_sum, fromZ 0, m_sum)
  else
    Rb <- truediv m_sum (SupB - SupA) ;;
    Ret (f_sum - Rb, Rb, fromZ 0).

(** ** [calculate_analysis]: the samples (lines 61-81) *)

(** A [numpy.float64] computed at a station: a number, or the [inf] or [nan]
    that numpy's division by zero leaves.  Sums, differences and products
    with [inf] or [nan] are [inf] or [nan] again. *)
Inductive sample : Type :=
| Finite (x : T)
| NonFinite.

Definition lift2 (op : T -> T -> T) (a b : sample) : sample :=
  match a, b with
  | Finite x, Finite y => Finite (op x y)
  | _, _ => NonFinite
  end.

Definition sadd := lift2 add.
Definition ssub := lift2 sub.
Definition smul := lift2 mul.
Definition squot := lift2 quot.       (* only by a literal divisor *)

(** [a / b] in the sampling loop.  The operands are [numpy.float64] when
    [np] holds and Python floats otherwise: the first divides by zero into
    [inf] or [nan], the second raises.  (A non-finite divisor comes with a
    non-finite dividend here, and their quotient is [nan].) *)
Definition scalar_truediv (np : bool) (a b : sample) : res sample :=
  match a, b with
  | Finite x, Finite y =>
      if y =? fromZ 0
      then (if np then Ret NonFinite else Raise ZeroDivisionError)
      else Ret (Finite (x / y))
  | _, _ => Ret NonFinite
  end.

(** One turn of the loop over the loads at the station [xi], on the pair
    [(v_val, m_val)]. *)
Definition load_step (xi : T) (acc : sample * sample) (l : Load)
  : res (sample * sample) :=
  let '(v_val, m_val) := acc in
  match l with
  | POINT mag loc =>
      if loc <? xi then
        Ret (ssub v_val (Finite mag), ssub m_val (Finite (mag * (xi - loc))))
      else Ret acc
  | UDL mag start end_ =>
      if start <? xi then
        let ov := pymin xi end_ - start in
        let f := mag * ov in
        Ret (ssub v_val (Finite f),
             ssub m_val (Finite (f * (xi - (start + ov / fromZ 2)))))
      else Ret acc
  | UVL start_mag end_mag start end_ =>
      if start <? xi then
        (* [min(xi, end)] is [xi], a numpy scalar, unless [end < xi] *)
        let np := negb (end_ <? xi) in
        let curr_end := pymin xi end_ in
        let dx := curr_end - start in
        let w1 := start_mag in
        r <- scalar_truediv np (Finite dx) (Finite (end_ - start)) ;;
        let w_at_x := sadd (Finite w1) (smul (Finite (end_mag - w1)) r) in
        let f_slice :=
          smul (squot (sadd (Finite w1) w_at_x) (Finite (fromZ 2))) (Finite dx) in
        c <- scalar_truediv np (sadd (Finite (fromZ 2 * w1)) w_at_x)
                               (sadd (Finite w1) w_at_x) ;;
        let cent := smul (Finite (dx / fromZ 3)) c in
        Ret (ssub v_val f_slice,
             ssub m_val (smul f_slice (ssub (Finite xi) (sadd (Finite start) cent))))
      else Ret acc
  end.

(** What the two reactions put into [(v_val, m_val)] at [xi] (lines 63-65). *)
Definition support_A (SupA Ra Ma xi : T) (acc : T * T) : T * T :=
  let '(v_val, m_val) := acc in
  if SupA <? xi then (v_val + Ra, m_val + (Ra * (xi - SupA) - Ma)) else acc.

Definition support_B (SupB Rb : T) (b_type : string) (xi : T) (acc : T * T)
  : T * T :=
  let '(v_val, m_val) := acc in
  if negb (String.eqb b_type "Cantilever") && (SupB <? xi)
  then (v_val + Rb, m_val + Rb * (xi - SupB)) else acc.

(** The body of the loop over the stations: [(v_val, m_val)] at [xi]. *)
Definition station (SupA SupB : T) (b_type : string) (loads : list Load)
    (Ra Rb Ma : T) (xi : T) : res (sample * sample) :=
  let '(v_val, m_val) :=
    support_B SupB Rb b_type xi (support_A SupA Ra Ma xi (fromZ 0, fromZ 0)) in
  foldM (load_step xi) loads (Finite v_val, Finite m_val).

(** [numpy.linspace(start, stop, num)] with its default [endpoint=True], for
    [num > 1]: [num] stations [start + i * step], the last one set to [stop]
    itself.  (A library function; this is what numpy computes.) *)
Definition linspace (start stop : T) (num : nat) : list T :=
  let div := fromZ (Z.of_nat (num - 1)) in
  let delta := stop - start in
  let step := delta / div in
  map (fun i : nat =>
         if Nat.eqb i (num - 1) then stop
         else if step =? fromZ 0
              then (fromZ (Z.of_nat i) / div) * delta + start
              else fromZ (Z.of_nat i) * step + start)
      (seq 0 num).

(** The tuple [x, V, M, Ra, Rb, Ma]. *)
Record Analysis : Type := {
  out_x : list T;
  out_V : list sample;
  out_M : list sample;
  out_Ra : T;
  out_Rb : T;
  out_Ma : T
}.

Definition calculate_analysis (L SupA SupB : T) (b_type : string)
    (loads : list Load) : res Analysis :=
  '(Ra, Rb, Ma) <- reactions SupA SupB b_type loads ;;
  let x := linspace (fromZ 0) L 500 in
  VM <- mapM (station SupA SupB b_type loads Ra Rb Ma) x ;;
  Ret {| out_x := x; out_V := map fst VM; out_M := map snd VM;
         out_Ra := Ra; out_Rb := Rb; out_Ma := Ma |}.

(** The page runs the analysis on every rerun, on whatever the form holds
    (lines 157-158). *)
Definition run_analysis (b_type : string) (L SupA SupB : T)
    (loads_list : list Load) : res Analysis :=
  let SupB_Calc := if negb (String.eqb b_type "Cantilever") then SupB else L in
  calculate_analysis L SupA SupB_Calc b_type loads_list.

End Engine.

(** * The vocabulary of the specification *)

Local Open Scope string_scope.

(** ** What the specification says each load contributes *)

Section Vocabulary.

Context {T : Type} `{NumT : Num T}.
Local Open Scope num_scope.

(** The resultant force of a load. *)
Definition load_force (l : Load) : T :=
  match l with
  | POINT f _ => f
  | UDL w s e => w * (e - s)
  | UVL w1 w2 s e => pymin w1 w2 * (e - s) + half * absn (w2 - w1) * (e - s)
  end.

(** Its moment about [SupA]: force times (centroid - SupA), piece by piece. *)
Definition load_moment (SupA : T) (l : Load) : T :=
  match l with
  | POINT f loc => f * (loc - SupA)
  | UDL w s e => w * (e - s) * (s + (e - s) / fromZ 2 - SupA)
  | UVL w1 w2 s e =>
      let centroid :=
        if w1 <? w2 then s + (fromZ 2 / fromZ 3) * (e - s)
        else s + (fromZ 1 / fromZ 3) * (e - s) in
      pymin w1 w2 * (e - s) * (s + (e - s) / fromZ 2 - SupA)
      + half * absn (w2 - w1) * (e - s) * (centroid - SupA)
  end.

(** The totals [F] and [M], accumulated load by load from [F0] and [M0]. *)
Definition total_force_from (F0 : T) (loads : list Load) : T :=
  fold_left (fun F l => F + load_force l) loads F0.

Definition total_moment_from (SupA M0 : T) (loads : list Load) : T :=
  fold_left (fun M l => M + load_moment SupA l) loads M0.

Definition total_force := total_force_from (fromZ 0).
Definition total_moment (SupA : T) := total_moment_from SupA (fromZ 0).

(** The check each handler runs on the load it is about to append. *)
Definition validate_load (L : T) (l : Load) : bool * Msg :=
  match l with
  | POINT _ loc => validate_inputs "POINT" (PyNum L) [PyNum loc]
  | UDL _ s e => validate_inputs "UDL" (PyNum L) [PyNum s; PyNum e]
  | UVL _ _ s e => validate_inputs "UVL" (PyNum L) [PyNum s; PyNum e]
  end.

(** Where a load begins to act: the position the sampler compares [xi] with. *)
Definition load_start (l : Load) : T :=
  match l with
  | POINT _ loc => loc
  | UDL _ s _ => s
  | UVL _ _ s _ => s
  end.

(** Where it ends. *)
Definition load_end (l : Load) : T :=
  match l with
  | POINT _ loc => loc
  | UDL _ _ e => e
  | UVL _ _ _ e => e
  end.

(** The position that carries the larger of the two end intensities. *)
Definition heavy_end (u : T * T * T * T) : T :=
  let '(w1, w2, s, e) := u in
  if w1 <? w2 then e else s.

(** The two ends of a linearly varying load, each with its intensity. *)
Definition ends (u : T * T * T * T) : list (T * T) :=
  let '(w1, w2, s, e) := u in [(s, w1); (e, w2)].

(** The intensity at the clipped right edge, [w_at_x] of the sampler. *)
Definition w_clip (xi w1 w2 s e : T) : T :=
  w1 + (w2 - w1) * ((pymin xi e - s) / (e - s)).

End Vocabulary.

Definition q (n : Z) : Qc := Q2Qc (inject_Z n).

(** ** In exact arithmetic *)

(** A value that is a number. *)
Definition numeric (v : pyval (T:=Qc)) : Prop := exists x, v = PyNum x.

(** The solver's decomposition of a linearly varying load, as a force and a
    moment about the station [xi]: the rectangle of intensity [min(w1, w2)]
    at the midpoint and the triangle of resultant [0.5 * |w2 - w1| * (e - s)]
    at the two-thirds point on the side of the larger intensity. *)
Definition uvl_decomposition (xi w1 w2 s e : Qc) : Qc * Qc :=
  let f1 := pymin w1 w2 * (e - s) in
  let f2 := q 1 / q 2 * Qcabs (w2 - w1) * (e - s) in
  let c1 := s + (e - s) / q 2 in
  let c2 := if Qc_ltb w1 w2 then s + q 2 / q 3 * (e - s)
            else s + q 1 / q 3 * (e - s) in
  (f1 + f2, f1 * (xi - c1) + f2 * (xi - c2)).

(** The rationals a step of the sampler leaves. *)
Definition sample_Q (s : sample (T:=Qc)) : option Q :=
  match s with
  | Finite x => Some (this x)
  | NonFinite => None
  end.

Definition step_Q (r : res (sample (T:=Qc) * sample (T:=Qc)))
  : res (option Q * option Q) :=
  match r with
  | Ret (v, m) => Ret (sample_Q v, sample_Q m)
  | Raise ex => Raise ex
  end.

(** The reactions and the moment at the last station, as rationals. *)
Definition end_state (r : res (Analysis (T:=Qc))) : res (Q * Q * option Q) :=
  a <- r ;;
  Ret (this (out_Ra a), this (out_Rb a),
       match nth_error (out_M a) 499 with
       | Some m => sample_Q m
       | None => None
       end).

(** The invariant of the data model: a load in its place on the beam. *)
Definition valid_load (L : Qc) (l : Load) : Prop :=
  match l with
  | POINT _ loc => 0 <= loc /\ loc <= L
  | UDL _ s e => 0 <= s /\ s < e /\ e <= L
  | UVL _ _ s e => 0 <= s /\ s < e /\ e <= L
  end.

(** A point load exactly at [L]. *)
Definition acts_at (L : Qc) (l : Load) : Prop :=
  match l with
  | POINT _ loc => loc = L
  | _ => False
  end.

(** A linearly varying load with one intensity, not zero, at both ends. *)
Definition untapered (l : Load (T:=Qc)) : Prop :=
  match l with
  | UVL w1 w2 _ _ => w1 = w2 /\ w1 <> 0
  | _ => True
  end.

(** A linearly varying load whose end intensities do not cancel: at a
    station at or past its end the sampler's divisor [w1 + w_at_x] is
    [w1 + w2]. *)
Definition nonzero_sum (l : Load (T:=Qc)) : Prop :=
  match l with
  | UVL w1 w2 _ _ => w1 + w2 <> 0
  | _ => True
  end.

(** The moment by which the sampler misses the solver on a whole linearly
    varying load. *)
Definition taper_offset (l : Load (T:=Qc)) : Qc :=
  match l with
  | UVL w1 w2 s e => (e - s) * (e - s) * (w2 - w1) / q 6
  | _ => 0
  end.

Fixpoint total_taper_offset (loads : list (Load (T:=Qc))) : Qc :=
  match loads with
  | [] => 0
  | l :: loads' => taper_offset l + total_taper_offset loads'
  end.

(** What a load takes off [(v_val, m_val)] at the station [xi], if it is
    engaged there. *)
Definition load_effect (xi : Qc) (l : Load) : res (option (sample * sample)) :=
  if Qc_ltb (load_start l) xi then
    r <- load_step xi (Finite 0, Finite 0) l ;;
    Ret (Some (ssub (Finite 0) (fst r), ssub (Finite 0) (snd r)))
  else Ret None.

Definition take_off (acc : sample (T:=Qc) * sample (T:=Qc))
    (d : option (sample (T:=Qc) * sample (T:=Qc))) : sample * sample :=
  match d with
  | Some (dv, dm) => (ssub (fst acc) dv, ssub (snd acc) dm)
  | None => acc
  end.

(** Point loads of 0.1, 0.2 and 0.3 kN at 5 m, in binary64, in two orders. *)
Definition loads_123 : list (Load (T:=float)) :=
  [POINT 0x1.999999999999ap-4 5; POINT 0x1.999999999999ap-3 5;
   POINT 0x1.3333333333333p-2 5]%float.

Definition loads_321 : list (Load (T:=float)) :=
  [POINT 0x1.3333333333333p-2 5; POINT 0x1.999999999999ap-3 5;
   POINT 0x1.999999999999ap-4 5]%float.

Definition Ra_of {T : Type} (r : res (Analysis (T:=T))) : option T :=
  match r with
  | Ret a => Some (out_Ra a)
  | Raise _ => None
  end.

(** * The rest of the page *)

Section Page.

Context {T : Type} `{NumT : Num T}.
Local Open Scope num_scope.

(** [loads_list.pop(i)], for the index [i] of a "Del" button (line 145). *)
Definition pop (i : nat) (loads_list : list (Load (T:=T)))
  : res (list (Load (T:=T))) :=
  if Nat.ltb i (List.length loads_list)
  then Ret (firstn i loads_list ++ skipn (S i) loads_list)%list
  else Raise IndexError.

(** What a click does to [loads_list] (lines 105-108, 114-118, 125-131,
    144-145, 148-149).  The "Del" buttons are drawn from
    [enumerate(loads_list)]. *)
Inductive click : Type :=
| AddPoint (pm pl : T)
| AddUDL (um us ue : T)
| AddUVL (vm1 vm2 vs ve : T)
| Del (i : nat)
| ClearAll.

Definition on_click (L : T) (loads_list : list (Load (T:=T))) (c : click)
  : res (list (Load (T:=T))) :=
  match c with
  | AddPoint pm pl => Ret (fst (add_point L pm pl loads_list))
  | AddUDL um us ue => Ret (fst (add_udl L um us ue loads_list))
  | AddUVL vm1 vm2 vs ve => Ret (fst (add_uvl L vm1 vm2 vs ve loads_list))
  | Del i => pop i loads_list
  | ClearAll => Ret []
  end.

(** [max(M, key=abs)] (line 189): the first item whose key no later item
    exceeds; [None] is the [ValueError] of an empty sequence. *)
Fixpoint max_abs_from (best : T) (M : list T) : T :=
  match M with
  | [] => best
  | m :: M' => max_abs_from (if absn best <? absn m then m else best) M'
  end.

Definition max_abs (M : list T) : option T :=
  match M with
  | [] => None
  | m :: M' => Some (max_abs_from m M')
  end.

(** A sample that is a number. *)
Definition is_finite (s : sample (T:=T)) : Prop := exists x, s = Finite x.

(** The pointwise sum of two sample sequences. *)
Fixpoint sadd_all (a b : list (sample (T:=T))) : list (sample (T:=T)) :=
  match a, b with
  | x :: a', y :: b' => sadd x y :: sadd_all a' b'
  | _, _ => []
  end.

End Page.

(** A load that cannot make the sampler divide by zero: any point or uniform
    load, and a linearly varying load over [start < end] whose intensities
    are not negative and not both zero. *)
Definition safe_load (l : Load (T:=Qc)) : Prop :=
  match l with
  | UVL w1 w2 s e =>
      (s < e /\ Q2Qc 0 <= w1 /\ Q2Qc 0 <= w2 /\ (w1 <> Q2Qc 0 \/ w2 <> Q2Qc 0))%Qc
  | _ => True
  end.

(** One load for another of the same effect. *)
Inductive same_effect : Load (T:=Qc) -> Load (T:=Qc) -> Prop :=
| same_load (l : Load) : same_effect l l
| same_uniform (w s e : Qc) :
    s < e -> w <> 0 -> same_effect (UVL w w s e) (UDL w s e).

(** * Properties *)

Section Generic.

Context {T : Type} `{NumT : Num T}.
Local Open Scope num_scope.

Lemma add_load_contribution (SupA m_sum f_sum : T) (l : Load) :
  add_load SupA (m_sum, f_sum) l
  = (m_sum + load_moment SupA l, f_sum + load_force l).
Proof.
  destruct l as [f loc | w s e | w1 w2 s e]; cbn [add_load load_moment load_force];
    try reflexivity.
  destruct (w1 <? w2); reflexivity.
Qed.

Lemma fold_add_load (SupA : T) (loads : list Load) :
  forall m_sum f_sum,
    fold_left (add_load SupA) loads (m_sum, f_sum)
    = (total_moment_from SupA m_sum loads, total_force_from f_sum loads).
Proof.
  induction loads as [| l loads IH]; intros m_sum f_sum.
  - reflexivity.
  - cbn [fold_left total_moment_from total_force_from].
    rewrite add_load_contribution. apply IH.
Qed.

Lemma load_sums_totals (SupA : T) (loads : list Load) :
  load_sums SupA loads = (total_moment SupA loads, total_force loads).
Proof. apply fold_add_load. Qed.

(** The reactions of a cantilever, in any arithmetic. *)
Lemma reactions_cantilever (SupA SupB : T) (loads : list Load) :
  reactions SupA SupB "Cantilever" loads
  = Ret (total_force loads, fromZ 0, total_moment SupA loads).
Proof.
  unfold reactions. rewrite load_sums_totals. reflexivity.
Qed.

(** The analysis returns the reactions it solved for. *)
Lemma calculate_analysis_reactions (L SupA SupB : T) (b_type : string)
    (loads : list Load) (r : Analysis) :
  calculate_analysis L SupA SupB b_type loads = Ret r ->
  reactions SupA SupB b_type loads = Ret (out_Ra r, out_Rb r, out_Ma r).
Proof.
  unfold calculate_analysis.
  destruct (reactions SupA SupB b_type loads) as [[[ra rb] ma] | e];
    cbn [bind]; [| discriminate].
  destruct (mapM _ _) as [VM | e]; cbn [bind]; [| discriminate].
  intros H. injection H as <-. reflexivity.
Qed.

End Generic.

(** ** Exact arithmetic *)

Local Open Scope Qc_scope.

Lemma Qc_ltb_spec (a b : Qc) : reflect (a < b) (Qc_ltb a b).
Proof.
  unfold Qc_ltb. destruct (a ?= b) eqn:E; constructor.
  - apply Qceq_alt in E. subst. apply Qcle_not_lt, Qcle_refl.
  - now apply Qclt_alt.
  - apply Qcgt_alt in E. apply Qcle_not_lt, Qclt_le_weak. exact E.
Qed.

Lemma Qc_leb_spec (a b : Qc) : reflect (a <= b) (Qc_leb a b).
Proof.
  unfold Qc_leb. destruct (a ?= b) eqn:E; constructor.
  - apply Qceq_alt in E. subst. apply Qcle_refl.
  - apply Qclt_le_weak. now apply Qclt_alt.
  - apply Qcgt_alt in E. now apply Qclt_not_le.
Qed.

Lemma Qc_eqb_spec (a b : Qc) : reflect (a = b) (Qc_eqb a b).
Proof.
  unfold Qc_eqb. destruct (a ?= b) eqn:E; constructor.
  - now apply Qceq_alt.
  - apply Qclt_alt in E. now apply Qclt_not_eq.
  - apply Qcgt_alt in E. intros ->. revert E. apply Qcle_not_lt, Qcle_refl.
Qed.

Lemma Qc_ltb_true (a b : Qc) : a < b -> Qc_ltb a b = true.
Proof. intros H. destruct (Qc_ltb_spec a b); [reflexivity | contradiction]. Qed.

Lemma Qc_ltb_false (a b : Qc) : b <= a -> Qc_ltb a b = false.
Proof.
  intros H. destruct (Qc_ltb_spec a b) as [Hlt |]; [| reflexivity].
  now apply Qcle_not_lt in H.
Qed.

Lemma Qc_ltb_irrefl (a : Qc) : Qc_ltb a a = false.
Proof. apply Qc_ltb_false, Qcle_refl. Qed.

Lemma Qc_eqb_refl (a : Qc) : Qc_eqb a a = true.
Proof. destruct (Qc_eqb_spec a a); congruence. Qed.

Lemma Qc_eqb_false (a b : Qc) : a <> b -> Qc_eqb a b = false.
Proof. intros H. destruct (Qc_eqb_spec a b); congruence. Qed.

(** The literals of the program. *)
Lemma lit0 : Q2Qc (inject_Z 0) = 0.
Proof. reflexivity. Qed.

Lemma lit1 : Q2Qc (inject_Z 1) = 1.
Proof. reflexivity. Qed.

Lemma lit2 : Q2Qc (inject_Z 2) = 1 + 1.
Proof. apply Qc_is_canon. reflexivity. Qed.

Lemma lit3 : Q2Qc (inject_Z 3) = 1 + 1 + 1.
Proof. apply Qc_is_canon. reflexivity. Qed.

Lemma lit6 : Q2Qc (inject_Z 6) = (1 + 1) * (1 + 1 + 1).
Proof. apply Qc_is_canon. reflexivity. Qed.

Lemma lit_half : Q2Qc (1 # 2) = 1 / (1 + 1).
Proof. apply Qc_is_canon. reflexivity. Qed.

Ltac qc_ops :=
  unfold q in *;
  cbn [fromZ half add sub mul quot absn ltb leb eqb Qc_Num] in *.
Ltac qc_lits :=
  repeat rewrite lit0; repeat rewrite lit1; repeat rewrite lit2;
  repeat rewrite lit3; repeat rewrite lit6; repeat rewrite lit_half.
Ltac qc_norm := qc_ops; qc_lits.
Ltac qc_neq :=
  let H := fresh in
  intro H; apply (f_equal this) in H; vm_compute in H; discriminate H.
Ltac qc_field := field; repeat split; try qc_neq; auto.
(* closed comparisons between literals *)
Ltac qc_cmp_closed :=
  solve [ reflexivity
        | let H := fresh in intro H; vm_compute in H; discriminate H ].

Lemma Qcminus_eq_0 (a b : Qc) : a - b = 0 <-> a = b.
Proof.
  split; intros H.
  - replace a with ((a - b) + b) by ring. rewrite H. ring.
  - subst. ring.
Qed.

Lemma truediv_Qc (a b : Qc) : b <> 0 -> truediv a b = Ret (a / b).
Proof.
  intros H. unfold truediv. qc_norm.
  now rewrite Qc_eqb_false.
Qed.

Lemma truediv_Qc_zero (a : Qc) : truediv a 0 = Raise ZeroDivisionError.
Proof. unfold truediv. qc_norm. now rewrite Qc_eqb_refl. Qed.

Lemma not_cantilever (b_type : string) :
  b_type <> "Cantilever" -> String.eqb b_type "Cantilever" = false.
Proof. intros H. now apply String.eqb_neq. Qed.

Lemma reactions_simply_supported (SupA SupB : Qc) (b_type : string)
    (loads : list Load) :
  b_type <> "Cantilever" -> SupB <> SupA ->
  reactions SupA SupB b_type loads
  = Ret (total_force loads - total_moment SupA loads / (SupB - SupA),
         total_moment SupA loads / (SupB - SupA), 0).
Proof.
  intros Hb Hsup. unfold reactions. rewrite load_sums_totals.
  rewrite (not_cantilever Hb). qc_ops.
  rewrite truediv_Qc by (now rewrite Qcminus_eq_0). reflexivity.
Qed.

Lemma load_sums_app (SupA : Qc) (loads : list Load) (l : Load) :
  load_sums SupA (loads ++ [l])
  = (fst (load_sums SupA loads) + load_moment SupA l,
     snd (load_sums SupA loads) + load_force l).
Proof.
  unfold load_sums. rewrite fold_left_app. cbn [fold_left].
  destruct (fold_left _ loads _) as [m_sum f_sum]. cbn [fst snd].
  rewrite add_load_contribution. reflexivity.
Qed.

Lemma pymin_Qc_cases (a b : Qc) :
  pymin a b <= a /\ pymin a b <= b /\ (pymin a b = a \/ pymin a b = b).
Proof.
  unfold pymin. qc_ops. destruct (Qc_ltb_spec b a) as [H | H].
  - repeat split; [now apply Qclt_le_weak | apply Qcle_refl | now right].
  - repeat split; [apply Qcle_refl | now apply Qcnot_lt_le | now left].
Qed.

(** C1. The reaction solver starts from [F = 0] and [M = 0] and adds, for
    each load, its force to [F] and its moment about [SupA] to [M]: [f] and
    [f * (loc - SupA)] for a point load, [f = w * (e - s)] at the midpoint for
    a uniform load, and for a linearly varying load the rectangle
    [min(w1, w2) * (e - s)] at the midpoint plus the triangle
    [0.5 * |w2 - w1| * (e - s)] at [s + 2/3 * (e - s)] if [w2 > w1] and at
    [s + 1/3 * (e - s)] otherwise.  It then returns [Ra = F], [Rb = 0],
    [Ma = M] for a cantilever and [Rb = M / (SupB - SupA)], [Ra = F - Rb],
    [Ma = 0] for a simply supported beam with [SupB <> SupA]; these are the
    reactions a returning analysis reports. *)
Theorem reactions_spec (SupA SupB : Qc) (b_type : string) (loads : list Load) :
  let F := total_force loads in
  let M := total_moment SupA loads in
  (* the accumulation *)
  load_sums SupA [] = (0, 0)
  /\ load_sums SupA loads = (M, F)
  /\ (forall l, load_sums SupA (loads ++ [l])
                = (M + load_moment SupA l, F + load_force l))
  (* the contribution of each kind of load *)
  /\ (forall f loc,
        load_force (POINT f loc) = f
        /\ load_moment SupA (POINT f loc) = f * (loc - SupA))
  /\ (forall w s e,
        load_force (UDL w s e) = w * (e - s)
        /\ load_moment SupA (UDL w s e)
           = w * (e - s) * (s + (e - s) / q 2 - SupA))
  /\ (forall w1 w2 s e,
        let f1 := pymin w1 w2 * (e - s) in
        let f2 := q 1 / q 2 * Qcabs (w2 - w1) * (e - s) in
        let centroid := if Qc_ltb w1 w2 then s + q 2 / q 3 * (e - s)
                        else s + q 1 / q 3 * (e - s) in
        load_force (UVL w1 w2 s e) = f1 + f2
        /\ load_moment SupA (UVL w1 w2 s e)
           = f1 * (s + (e - s) / q 2 - SupA) + f2 * (centroid - SupA)
        /\ pymin w1 w2 <= w1 /\ pymin w1 w2 <= w2
        /\ (pymin w1 w2 = w1 \/ pymin w1 w2 = w2))
  (* the reactions *)
  /\ (b_type = "Cantilever" ->
      reactions SupA SupB b_type loads = Ret (F, 0, M))
  /\ (b_type <> "Cantilever" -> SupB <> SupA ->
      reactions SupA SupB b_type loads
      = Ret (F - M / (SupB - SupA), M / (SupB - SupA), 0))
  /\ (forall L r, calculate_analysis L SupA SupB b_type loads = Ret r ->
      reactions SupA SupB b_type loads = Ret (out_Ra r, out_Rb r, out_Ma r)).
Proof.
  intros F M.
  repeat match goal with |- _ /\ _ => split end.
  - reflexivity.
  - apply load_sums_totals.
  - intros l. rewrite load_sums_app, load_sums_totals. reflexivity.
  - intros f loc. split; reflexivity.
  - intros w s e. split; reflexivity.
  - intros w1 w2 s e f1 f2 centroid. subst f1 f2 centroid.
    split; [| split; [| apply pymin_Qc_cases]].
    + cbn [load_force]. qc_norm. reflexivity.
    + cbn [load_moment]. qc_norm. destruct (Qc_ltb w1 w2); ring.
  - intros ->. rewrite reactions_cantilever. reflexivity.
  - intros Hb Hsup. now apply reactions_simply_supported.
  - intros L r. apply calculate_analysis_reactions.
Qed.

Lemma reactions_spec_witness :
  reactions (q 0) (q 10) "Simply Supported" [POINT (q 10) (q 5)]
  = Ret (total_force [POINT (q 10) (q 5)]
         - total_moment (q 0) [POINT (q 10) (q 5)] / (q 10 - q 0),
         total_moment (q 0) [POINT (q 10) (q 5)] / (q 10 - q 0), 0).
Proof.
  apply (reactions_spec (q 0) (q 10) "Simply Supported" [POINT (q 10) (q 5)]).
  - discriminate.
  - qc_neq.
Defined.

(** ** Validation *)

Ltac validate_unfold :=
  unfold validate_load, validate_inputs, validate_body;
  cbn [bind as_num arg nth_error]; qc_norm;
  simpl (String.eqb _ _); cbn [orb].

Lemma Qclt_irrefl (a : Qc) : ~ a < a.
Proof. apply Qcle_not_lt, Qcle_refl. Qed.

Lemma Qc_not_lt_le (a b : Qc) : ~ a < b <-> b <= a.
Proof. split; [apply Qcnot_lt_le | apply Qcle_not_lt]. Qed.

Lemma Qc_not_le_lt (a b : Qc) : ~ a <= b <-> b < a.
Proof. split; [apply Qcnot_le_lt | apply Qclt_not_le]. Qed.

Lemma validate_point_eq (L mag loc : Qc) :
  validate_load L (POINT mag loc)
  = if Qc_leb L 0 then (false, BeamLengthMsg)
    else if Qc_ltb loc 0 || Qc_ltb L loc
         then (false, LocationMsg (PyNum loc) (PyNum L))
         else (true, NoMsg).
Proof.
  validate_unfold. destruct (Qc_leb L 0); [reflexivity |].
  destruct (Qc_ltb loc 0 || Qc_ltb L loc); reflexivity.
Qed.

Lemma validate_range_eq (L s e : Qc) (l : Load) :
  (exists w, l = UDL w s e) \/ (exists w1 w2, l = UVL w1 w2 s e) ->
  validate_load L l
  = if Qc_leb L 0 then (false, BeamLengthMsg)
    else if Qc_ltb s 0 then (false, RangeMsg (PyNum s) (PyNum e) (PyNum L))
    else if Qc_ltb L e then (false, RangeMsg (PyNum s) (PyNum e) (PyNum L))
    else if Qc_eqb s e then (false, SamePointMsg)
    else (true, NoMsg).
Proof.
  intros [[w ->] | [w1 [w2 ->]]]; validate_unfold;
    destruct (Qc_leb L 0); try reflexivity;
    destruct (Qc_ltb s 0); try reflexivity;
    cbn [bind]; destruct (Qc_ltb L e); try reflexivity;
    destruct (Qc_eqb s e); reflexivity.
Qed.

Ltac qc_order :=
  try contradiction; try discriminate; try reflexivity; try tauto;
  try match goal with
  | H1 : ?a < ?b, H2 : ?b <= ?a |- _ => exfalso; exact (Qclt_not_le _ _ H1 H2)
  | H1 : ?a < ?b, H2 : ?b < ?a |- _ =>
      exfalso; exact (Qclt_not_le _ _ H1 (Qclt_le_weak _ _ H2))
  | H : ?a < ?a |- _ => exfalso; exact (Qclt_irrefl H)
  | H : ?a < ?b, E : ?a = ?b |- _ =>
      exfalso; rewrite E in H; exact (Qclt_irrefl H)
  | H1 : ?a <= ?b, H2 : ?b <= ?a, H3 : ?a <> ?b |- _ =>
      exfalso; exact (H3 (Qcle_antisym _ _ H1 H2))
  end.

(** C5. On a beam of length [L > 0] a point load is accepted iff
    [0 <= location <= L] and is otherwise rejected as [OutOfBounds]; a uniform
    or linearly varying load is accepted iff [start >= 0], [end <= L] and
    [start <> end], and is otherwise rejected as [OutOfBounds] (range outside
    the beam) or [DegenerateRange] (start equal to end).  When [L <= 0] every
    load is rejected as [InvalidSpan]. *)
Theorem validate_load_spec (L : Qc) :
  (0 < L ->
   (forall mag loc,
      (validate_load L (POINT mag loc) = (true, NoMsg) <-> 0 <= loc /\ loc <= L)
      /\ (~ (0 <= loc /\ loc <= L) ->
          fst (validate_load L (POINT mag loc)) = false
          /\ kind_of (snd (validate_load L (POINT mag loc))) = Some OutOfBounds))
   /\ (forall w w1 w2 s e l,
         l = UDL w s e \/ l = UVL w1 w2 s e ->
         (validate_load L l = (true, NoMsg) <-> 0 <= s /\ e <= L /\ s <> e)
         /\ (s < 0 \/ L < e ->
             fst (validate_load L l) = false
             /\ kind_of (snd (validate_load L l)) = Some OutOfBounds)
         /\ (0 <= s -> e <= L -> s = e ->
             fst (validate_load L l) = false
             /\ kind_of (snd (validate_load L l)) = Some DegenerateRange)))
  /\ (L <= 0 ->
      forall l, fst (validate_load L l) = false
                /\ kind_of (snd (validate_load L l)) = Some InvalidSpan).
Proof.
  split.
  - intros HL. apply Qclt_not_le in HL. split.
    + intros mag loc. rewrite validate_point_eq.
      destruct (Qc_leb_spec L 0); [contradiction |].
      destruct (Qc_ltb_spec loc 0) as [H0 | H0];
        destruct (Qc_ltb_spec L loc) as [H1 | H1]; cbn [orb fst snd kind_of];
        rewrite ?Qc_not_lt_le in *;
        (split; [split; [intros ? | intros [? ?]] | intros ?]); qc_order.
    + intros w w1 w2 s e l Hl.
      rewrite (@validate_range_eq L s e l)
        by (destruct Hl; [left | right]; eauto).
      destruct (Qc_leb_spec L 0); [contradiction |].
      destruct (Qc_ltb_spec s 0) as [H0 | H0];
        [| destruct (Qc_ltb_spec L e) as [H1 | H1];
           [| destruct (Qc_eqb_spec s e) as [H2 | H2]]];
        cbn [fst snd kind_of]; rewrite ?Qc_not_lt_le in *;
        (split; [split; [intros ? | intros (? & ? & ?)]
                | split; [intros [? | ?] | intros ? ? ?]]); qc_order.
  - intros HL l.
    destruct l as [mag loc | w s e | w1 w2 s e];
      [rewrite validate_point_eq
      | rewrite (@validate_range_eq L s e) by (left; eauto)
      | rewrite (@validate_range_eq L s e) by (right; eauto)];
      (destruct (Qc_leb_spec L 0); [| contradiction]); split; reflexivity.
Qed.

Lemma validate_load_spec_witness :
  validate_load (q 10) (POINT (q 10) (q 5)) = (true, NoMsg)
  <-> 0 <= q 5 /\ q 5 <= q 10.
Proof.
  assert (H : 0 < q 10) by reflexivity.
  exact (proj1 (proj1 (proj1 (validate_load_spec (q 10)) H) (q 10) (q 5))).
Defined.

Lemma as_num_raises (v : pyval (T:=Qc)) : ~ numeric v -> as_num v = Raise TypeError.
Proof.
  intros H. destruct v as [x | s |]; try reflexivity.
  exfalso. apply H. now exists x.
Qed.

(** The body of [validate_inputs] never returns the message of the handler. *)
Lemma validate_body_msg (load_type : string) (L : pyval) (args : list pyval)
    (b : bool) (m : Msg (T:=Qc)) :
  validate_body load_type L args = Ret (b, m) -> m <> InvalidNumericMsg.
Proof.
  unfold validate_body.
  destruct (as_num L) as [l | ex]; cbn [bind]; [| discriminate].
  destruct (leb l (fromZ 0)); [intros [= <- <-]; discriminate |].
  destruct (String.eqb load_type "POINT").
  - destruct (arg args 0) as [loc | ex]; cbn [bind]; [| discriminate].
    destruct (as_num loc) as [x | ex]; cbn [bind]; [| discriminate].
    destruct (_ || _); intros [= <- <-]; discriminate.
  - destruct (_ || _); [| intros [= <- <-]; discriminate].
    destruct (arg args 0) as [s | ex]; cbn [bind]; [| discriminate].
    destruct (arg args 1) as [e | ex]; cbn [bind]; [| discriminate].
    destruct (as_num s) as [sx | ex]; cbn [bind]; [| discriminate].
    destruct (ltb sx (fromZ 0)); [intros [= <- <-]; discriminate |].
    destruct (as_num e) as [ex' | ex]; cbn [bind]; [| discriminate].
    destruct (ltb l ex'); [intros [= <- <-]; discriminate |].
    destruct (eqb sx ex'); intros [= <- <-]; discriminate.
Qed.

(** C9. [validate_inputs] never raises: every outcome is a pair of a flag and
    a message.  The outcome is [InvalidInput] ("Invalid numeric input.")
    exactly when the body of the [try] raises, which is when a comparison
    reaches a field that is not a number or a positional argument is
    missing; a check that decides earlier wins: a numeric [L <= 0] gives
    [InvalidSpan], a numeric [start < 0] gives [OutOfBounds], whatever the
    other fields hold, and an unknown load type is accepted unread. *)
Theorem validate_inputs_invalid_input (load_type : string) (L : pyval)
    (args : list pyval) :
  (validate_inputs load_type L args = (false, InvalidNumericMsg)
   <-> exists ex, validate_body load_type L args = Raise ex)
  /\ (forall fmt, msg_text fmt (InvalidNumericMsg (T:=Qc)) = "Invalid numeric input."
                  /\ kind_of (InvalidNumericMsg (T:=Qc)) = Some InvalidInput)
  /\ (~ numeric L -> validate_inputs load_type L args = (false, InvalidNumericMsg))
  /\ (forall l, L = PyNum l -> l <= 0 ->
      validate_inputs load_type L args = (false, BeamLengthMsg))
  /\ (forall l, L = PyNum l -> 0 < l -> load_type = "POINT" ->
      (args = [] -> validate_inputs load_type L args = (false, InvalidNumericMsg))
      /\ (forall loc rest, args = loc :: rest -> ~ numeric loc ->
          validate_inputs load_type L args = (false, InvalidNumericMsg)))
  /\ (forall l, L = PyNum l -> 0 < l -> load_type = "UDL" \/ load_type = "UVL" ->
      ((List.length args < 2)%nat ->
       validate_inputs load_type L args = (false, InvalidNumericMsg))
      /\ (forall s e rest, args = s :: e :: rest ->
          (~ numeric s ->
           validate_inputs load_type L args = (false, InvalidNumericMsg))
          /\ (forall sx, s = PyNum sx -> sx < 0 ->
              validate_inputs load_type L args = (false, RangeMsg s e L))
          /\ (forall sx, s = PyNum sx -> 0 <= sx -> ~ numeric e ->
              validate_inputs load_type L args = (false, InvalidNumericMsg))))
  /\ (forall l, L = PyNum l -> 0 < l ->
      load_type <> "POINT" -> load_type <> "UDL" -> load_type <> "UVL" ->
      validate_inputs load_type L args = (true, NoMsg)).
Proof.
  split; [| split; [| split; [| split; [| split; [| split]]]]].
  - unfold validate_inputs. split.
    + destruct (validate_body load_type L args) as [[b m] | ex] eqn:E.
      * intros [= -> ->]. now apply validate_body_msg in E.
      * intros _. now exists ex.
    + intros [ex ->]. reflexivity.
  - intros fmt. split; reflexivity.
  - intros HL. unfold validate_inputs, validate_body.
    now rewrite (as_num_raises HL).
  - intros l -> Hl. validate_unfold.
    destruct (Qc_leb_spec l 0); [reflexivity | contradiction].
  - intros l -> Hl ->. apply Qclt_not_le in Hl. split.
    + intros ->. validate_unfold.
      destruct (Qc_leb_spec l 0); [contradiction | reflexivity].
    + intros loc rest -> Hloc. validate_unfold.
      destruct (Qc_leb_spec l 0); [contradiction |].
      now rewrite (as_num_raises Hloc).
  - intros l -> Hl Hty. apply Qclt_not_le in Hl.
    assert (Hsel : String.eqb load_type "POINT" = false
                   /\ (String.eqb load_type "UDL" || String.eqb load_type "UVL") = true)
      by (destruct Hty as [-> | ->]; split; reflexivity).
    destruct Hsel as [Hp Hd].
    unfold validate_inputs, validate_body. cbn [bind as_num].
    qc_norm. rewrite Hp, Hd.
    destruct (Qc_leb_spec l 0); [contradiction |]. split.
    + intros Hlen. destruct args as [| s [| e rest]]; cbn [arg nth_error bind];
        try reflexivity.
      cbn [List.length] in Hlen. lia.
    + intros s e rest ->. cbn [arg nth_error bind]. split; [| split].
      * intros Hs. now rewrite (as_num_raises Hs).
      * intros sx -> Hsx. cbn [as_num bind]. now rewrite (Qc_ltb_true Hsx).
      * intros sx -> Hsx He. cbn [as_num bind]. rewrite (Qc_ltb_false Hsx).
        now rewrite (as_num_raises He).
  - intros l -> Hl Hp Hu Hv. apply Qclt_not_le in Hl.
    apply String.eqb_neq in Hp, Hu, Hv.
    unfold validate_inputs, validate_body. cbn [bind as_num].
    qc_norm. rewrite Hp, Hu, Hv.
    destruct (Qc_leb_spec l 0); [contradiction | reflexivity].
Qed.

Lemma validate_inputs_invalid_input_witness :
  validate_inputs "POINT" (PyStr "ten") [PyNum (q 5)]
  = (false, InvalidNumericMsg).
Proof.
  apply (validate_inputs_invalid_input "POINT" (PyStr "ten") [PyNum (q 5)]).
  intros [x Hx]. discriminate Hx.
Defined.

(** A range that starts before the beam is reported as [OutOfBounds] although
    its end is not a number; so is a non-positive length as [InvalidSpan]. *)
Lemma validate_inputs_non_numeric_not_invalid_input :
  validate_inputs "UDL" (PyNum (q 10)) [PyNum (q (-1)); PyStr "abc"]
  = (false, RangeMsg (PyNum (q (-1))) (PyStr "abc") (PyNum (q 10)))
  /\ kind_of (snd (validate_inputs "UDL" (PyNum (q 10)) [PyNum (q (-1)); PyStr "abc"]))
     = Some OutOfBounds
  /\ validate_inputs "POINT" (PyNum (q 0)) [PyStr "abc"] = (false, BeamLengthMsg)
  /\ validate_inputs "BEAM" (PyNum (q 10)) [PyStr "abc"] = (true, NoMsg).
Proof. repeat split. Qed.

(** ** Degenerate support span *)

(** C2, as the code has it.  Nothing validates the supports: [validate_inputs]
    is not given them and has no message for them, and the page runs the
    analysis on whatever the form holds.  On a simply supported beam with
    [SupA = SupB] the solver divides by [SupB - SupA = 0] and the analysis
    ends in [ZeroDivisionError], for every load set. *)
Theorem degenerate_support_span_raises (L SupA : Qc) (b_type : string)
    (loads : list Load) :
  b_type <> "Cantilever" ->
  reactions SupA SupA b_type loads = Raise ZeroDivisionError
  /\ calculate_analysis L SupA SupA b_type loads = Raise ZeroDivisionError
  /\ run_analysis b_type L SupA SupA loads = Raise ZeroDivisionError
  /\ (forall load_type (L' : pyval (T:=Qc)) args,
        kind_of (snd (validate_inputs load_type L' args))
        <> Some DegenerateSupportSpan).
Proof.
  intros Hb.
  assert (Hr : reactions SupA SupA b_type loads = Raise ZeroDivisionError).
  { unfold reactions. destruct (load_sums SupA loads) as [m_sum f_sum].
    rewrite (not_cantilever Hb). qc_ops.
    replace (SupA - SupA) with 0 by ring.
    now rewrite truediv_Qc_zero. }
  split; [exact Hr |]. split; [| split].
  - unfold calculate_analysis. now rewrite Hr.
  - unfold run_analysis, calculate_analysis.
    rewrite (not_cantilever Hb). cbn [negb]. now rewrite Hr.
  - intros load_type L' args. unfold validate_inputs.
    destruct (validate_body load_type L' args) as [[b m] | ex] eqn:E;
      cbn [snd kind_of]; [| discriminate].
    destruct m; cbn [kind_of]; discriminate.
Qed.

Lemma degenerate_support_span_raises_witness :
  calculate_analysis (q 10) (q 5) (q 5) "Simply Supported" [POINT (q 10) (q 5)]
  = Raise ZeroDivisionError.
Proof.
  apply (@degenerate_support_span_raises (q 10) (q 5) "Simply Supported"
           [POINT (q 10) (q 5)]).
  discriminate.
Defined.

(** A load is accepted and appended, and the analysis of the simply supported
    beam with both supports at 5 m then divides by zero. *)
Lemma degenerate_support_span_not_rejected :
  validate_inputs "POINT" (PyNum (q 10)) [PyNum (q 5)] = (true, NoMsg)
  /\ add_point (q 10) (q 10) (q 5) [] = ([POINT (q 10) (q 5)]%list, None)
  /\ run_analysis "Simply Supported" (q 10) (q 5) (q 5) [POINT (q 10) (q 5)]
     = Raise ZeroDivisionError
  /\ run_analysis "Simply Supported" (q 10) (q 5) (q 5) []
     = Raise ZeroDivisionError.
Proof. repeat split. Qed.

(** ** Strict engagement *)

Lemma load_step_not_engaged (xi : Qc) (acc : sample * sample) (l : Load) :
  xi <= load_start l -> load_step xi acc l = Ret acc.
Proof.
  intros H. destruct acc as [v_val m_val].
  destruct l as [mag loc | mag s e | w1 w2 s e]; cbn [load_start] in H;
    cbn [load_step]; qc_ops; now rewrite (Qc_ltb_false H).
Qed.

Lemma foldM_skip {A B : Type} (f : A -> B -> res A) (b : B) (l : list B) (a : A) :
  f a b = Ret a -> foldM f (b :: l) a = foldM f l a.
Proof. intros H. cbn [foldM]. now rewrite H. Qed.

(** C4. A load adds nothing to the sampled shear and moment at a station
    that is at (or before) its start or location, and a support adds nothing
    at a station that is at (or before) the support: every comparison is the
    strict [xi > position].  Strictly past the position the load or reaction
    is engaged. *)
Theorem strict_engagement (xi SupA SupB Ra Rb Ma : Qc) (b_type : string)
    (l : Load) (loads : list Load) (acc : sample * sample) (tacc : Qc * Qc) :
  (* at or before the position: nothing *)
  (xi <= load_start l ->
     load_step xi acc l = Ret acc
     /\ station SupA SupB b_type (l :: loads) Ra Rb Ma xi
        = station SupA SupB b_type loads Ra Rb Ma xi)
  /\ load_step (load_start l) acc l = Ret acc
  /\ (xi <= SupA -> support_A SupA Ra Ma xi tacc = tacc)
  /\ support_A SupA Ra Ma SupA tacc = tacc
  /\ (xi <= SupB -> support_B SupB Rb b_type xi tacc = tacc)
  /\ support_B SupB Rb b_type SupB tacc = tacc
  (* strictly past the position: engaged *)
  /\ (forall mag loc v m, loc < xi ->
        load_step xi (Finite v, Finite m) (POINT mag loc)
        = Ret (Finite (v - mag), Finite (m - mag * (xi - loc))))
  /\ (forall mag s e v m, s < xi ->
        load_step xi (Finite v, Finite m) (UDL mag s e)
        = Ret (Finite (v - mag * (pymin xi e - s)),
               Finite (m - mag * (pymin xi e - s)
                           * (xi - (s + (pymin xi e - s) / q 2)))))
  /\ (SupA < xi ->
        support_A SupA Ra Ma xi tacc
        = (fst tacc + Ra, snd tacc + (Ra * (xi - SupA) - Ma)))
  /\ (SupB < xi -> b_type <> "Cantilever" ->
        support_B SupB Rb b_type xi tacc
        = (fst tacc + Rb, snd tacc + Rb * (xi - SupB))).
Proof.
  destruct tacc as [v0 m0].
  repeat match goal with |- _ /\ _ => split end.
  - intros H. split; [now apply load_step_not_engaged |].
    unfold station. destruct (support_B _ _ _ _ _) as [v_val m_val].
    apply foldM_skip. now apply load_step_not_engaged.
  - apply load_step_not_engaged, Qcle_refl.
  - intros H. unfold support_A. qc_ops. now rewrite (Qc_ltb_false H).
  - unfold support_A. qc_ops. now rewrite Qc_ltb_irrefl.
  - intros H. unfold support_B. qc_ops. rewrite (Qc_ltb_false H).
    now rewrite andb_false_r.
  - unfold support_B. qc_ops. rewrite Qc_ltb_irrefl. now rewrite andb_false_r.
  - intros mag loc v m H. cbn [load_step]. qc_ops. rewrite (Qc_ltb_true H).
    reflexivity.
  - intros mag s e v m H. cbn [load_step]. qc_norm.
    rewrite (Qc_ltb_true H). reflexivity.
  - intros H. unfold support_A. qc_ops. now rewrite (Qc_ltb_true H).
  - intros H Hb. unfold support_B. qc_ops. rewrite (Qc_ltb_true H).
    now rewrite (not_cantilever Hb).
Qed.

Lemma strict_engagement_witness :
  load_step (q 5) (Finite (q 5), Finite (q 25)) (POINT (q 10) (q 5))
  = Ret (Finite (q 5), Finite (q 25)).
Proof.
  refine (proj1 (proj1 (@strict_engagement (q 5) (q 0) (q 10) (q 5) (q 5) (q 0)
                          "Simply Supported" (POINT (q 10) (q 5)) []
                          (Finite (q 5), Finite (q 25)) (q 0, q 0)) _)).
  cbn [load_start]. apply Qcle_refl.
Defined.

(** ** Normalisation of an inverted range *)

Lemma swap_udl_idem (vs ve : Qc) :
  swap_udl (swap_udl (vs, ve)) = swap_udl (vs, ve).
Proof.
  unfold swap_udl. qc_ops.
  destruct (Qc_ltb_spec ve vs) as [H | H].
  - now rewrite (Qc_ltb_false (Qclt_le_weak _ _ H)).
  - destruct (Qc_ltb_spec ve vs); [contradiction | reflexivity].
Qed.

Lemma swap_uvl_idem (vm1 vm2 vs ve : Qc) :
  swap_uvl (swap_uvl (vm1, vm2, vs, ve)) = swap_uvl (vm1, vm2, vs, ve).
Proof.
  unfold swap_uvl. qc_ops.
  destruct (Qc_ltb_spec ve vs) as [H | H].
  - now rewrite (Qc_ltb_false (Qclt_le_weak _ _ H)).
  - destruct (Qc_ltb_spec ve vs); [contradiction | reflexivity].
Qed.

Lemma swap_spec_order_udl (vs ve : Qc) :
  fst (swap_udl (vs, ve)) <= snd (swap_udl (vs, ve)).
Proof.
  unfold swap_udl. qc_ops. destruct (Qc_ltb_spec ve vs) as [H | H]; cbn [fst snd].
  - now apply Qclt_le_weak.
  - now apply Qcnot_lt_le.
Qed.

Lemma swap_spec_order_uvl (vm1 vm2 vs ve : Qc) :
  let '(_, _, s, e) := swap_uvl (vm1, vm2, vs, ve) in s <= e.
Proof.
  unfold swap_uvl. qc_ops. destruct (Qc_ltb_spec ve vs) as [H | H].
  - now apply Qclt_le_weak.
  - now apply Qcnot_lt_le.
Qed.

(** C6. A distributed load supplied with [start > end] has its two positions
    swapped, and a linearly varying one has its two intensities swapped in
    the same step; a load already in order is left alone, so normalising
    twice is normalising once, for the data and for what the handler
    appends; and each intensity stays at its position, so the larger one
    stays on the same side. *)
Theorem swap_spec (L um vm1 vm2 vs ve : Qc) (loads : list Load) :
  let u := (vm1, vm2, vs, ve) in
  (ve < vs ->
     swap_udl (vs, ve) = (ve, vs) /\ swap_uvl u = (vm2, vm1, ve, vs))
  /\ (vs <= ve -> swap_udl (vs, ve) = (vs, ve) /\ swap_uvl u = u)
  /\ swap_udl (swap_udl (vs, ve)) = swap_udl (vs, ve)
  /\ swap_uvl (swap_uvl u) = swap_uvl u
  /\ fst (swap_udl (vs, ve)) <= snd (swap_udl (vs, ve))
  /\ (let '(_, _, s, e) := swap_uvl u in s <= e)
  /\ (forall p w, In (p, w) (ends (swap_uvl u)) <-> In (p, w) (ends u))
  /\ (vm1 <> vm2 -> heavy_end (swap_uvl u) = heavy_end u)
  /\ (let '(s, e) := swap_udl (vs, ve) in
      add_udl L um s e loads = add_udl L um vs ve loads)
  /\ (let '(w1, w2, s, e) := swap_uvl u in
      add_uvl L w1 w2 s e loads = add_uvl L vm1 vm2 vs ve loads).
Proof.
  intros u. subst u.
  repeat match goal with |- _ /\ _ => split end.
  - intros H. unfold swap_udl, swap_uvl. qc_ops. now rewrite (Qc_ltb_true H).
  - intros H. unfold swap_udl, swap_uvl. qc_ops. now rewrite (Qc_ltb_false H).
  - apply swap_udl_idem.
  - apply swap_uvl_idem.
  - apply swap_spec_order_udl.
  - apply swap_spec_order_uvl.
  - intros p w. unfold swap_uvl. qc_ops.
    destruct (Qc_ltb ve vs); cbn [ends In]; tauto.
  - intros Hw. unfold swap_uvl, heavy_end. qc_ops.
    destruct (Qc_ltb ve vs); [| reflexivity].
    destruct (Qc_ltb_spec vm1 vm2) as [H | H].
    + now rewrite (Qc_ltb_false (Qclt_le_weak _ _ H)).
    + apply Qcnot_lt_le in H. apply Qcle_lt_or_eq in H.
      destruct H as [H | H]; [| now symmetry in H].
      now rewrite (Qc_ltb_true H).
  - destruct (swap_udl (vs, ve)) as [s e] eqn:E.
    unfold add_udl. rewrite <- E at 1. rewrite swap_udl_idem. now rewrite E.
  - destruct (swap_uvl (vm1, vm2, vs, ve)) as [[[w1 w2] s] e] eqn:E.
    unfold add_uvl. rewrite <- E at 1. rewrite swap_uvl_idem. now rewrite E.
Qed.

Lemma swap_spec_witness :
  swap_udl (q 8, q 2) = (q 2, q 8)
  /\ swap_uvl (q 0, q 10, q 8, q 2) = (q 10, q 0, q 2, q 8).
Proof.
  apply (@swap_spec (q 10) (q 5) (q 0) (q 10) (q 8) (q 2) []).
  reflexivity.
Defined.

(** ** What the handlers append *)

Lemma valid_range_iff (L s e : Qc) :
  ~ L <= 0 ->
  0 <= s /\ s < e /\ e <= L
  <-> (if Qc_leb L 0 then (false, BeamLengthMsg (T:=Qc))
       else if Qc_ltb s 0 then (false, RangeMsg (PyNum s) (PyNum e) (PyNum L))
       else if Qc_ltb L e then (false, RangeMsg (PyNum s) (PyNum e) (PyNum L))
       else if Qc_eqb s e then (false, SamePointMsg)
       else (true, NoMsg)) = (true, NoMsg)
      /\ s <= e.
Proof.
  intros HL. destruct (Qc_leb_spec L 0); [contradiction |].
  destruct (Qc_ltb_spec s 0) as [H0 | H0];
    [| destruct (Qc_ltb_spec L e) as [H1 | H1];
       [| destruct (Qc_eqb_spec s e) as [H2 | H2]]];
    rewrite ?Qc_not_lt_le in *;
    (split; [intros (? & ? & ?) | intros [? Hle]]); qc_order.
  - split; [reflexivity | now apply Qclt_le_weak].
  - repeat split; try assumption.
    apply Qcle_lt_or_eq in Hle. destruct Hle; [assumption | contradiction].
Qed.

Lemma valid_load_iff (L : Qc) (l : Load) :
  0 < L ->
  valid_load L l
  <-> validate_load L l = (true, NoMsg) /\ load_start l <= load_end l.
Proof.
  intros HL. apply Qclt_not_le in HL.
  destruct l as [mag loc | w s e | w1 w2 s e];
    [rewrite validate_point_eq
    | rewrite (@validate_range_eq L s e) by (left; eauto)
    | rewrite (@validate_range_eq L s e) by (right; eauto)];
    cbn [valid_load load_start load_end];
    try (now apply valid_range_iff).
  destruct (Qc_leb_spec L 0); [contradiction |].
  destruct (Qc_ltb_spec loc 0) as [H0 | H0];
    destruct (Qc_ltb_spec L loc) as [H1 | H1]; cbn [orb];
    rewrite ?Qc_not_lt_le in *;
    (split; [intros [? ?] | intros [? ?]]); qc_order.
  split; [reflexivity | apply Qcle_refl].
Qed.

(** A handler appends one load, in its place on the beam, or leaves the list
    as it is and shows a message. *)
Lemma add_udl_outcome (L um us ue : Qc) (loads_list : list Load) :
  0 < L ->
  (exists s e, add_udl L um us ue loads_list
               = ((loads_list ++ [UDL um s e])%list, None)
               /\ valid_load L (UDL um s e))
  \/ (exists msg, add_udl L um us ue loads_list = (loads_list, Some msg)).
Proof.
  intros HL. unfold add_udl.
  pose proof (@swap_spec_order_udl us ue) as Hord.
  destruct (swap_udl (us, ue)) as [s e]. cbn [fst snd] in Hord.
  change (validate_inputs "UDL" (PyNum L) [PyNum s; PyNum e])
    with (validate_load L (UDL um s e)).
  destruct (validate_load L (UDL um s e)) as [[|] msg] eqn:E.
  - left. exists s, e. split; [reflexivity |].
    apply (valid_load_iff _ HL). split; [| exact Hord].
    rewrite E. f_equal.
    rewrite (@validate_range_eq L s e) in E by (left; eauto).
    destruct (Qc_leb L 0); [discriminate |].
    destruct (Qc_ltb s 0); [discriminate |].
    destruct (Qc_ltb L e); [discriminate |].
    destruct (Qc_eqb s e); [discriminate |]. now injection E.
  - right. now exists msg.
Qed.

Lemma add_uvl_outcome (L vm1 vm2 vs ve : Qc) (loads_list : list Load) :
  0 < L ->
  (exists w1 w2 s e, add_uvl L vm1 vm2 vs ve loads_list
                     = ((loads_list ++ [UVL w1 w2 s e])%list, None)
                     /\ valid_load L (UVL w1 w2 s e))
  \/ (exists msg, add_uvl L vm1 vm2 vs ve loads_list = (loads_list, Some msg)).
Proof.
  intros HL. unfold add_uvl.
  pose proof (@swap_spec_order_uvl vm1 vm2 vs ve) as Hord.
  destruct (swap_uvl (vm1, vm2, vs, ve)) as [[[w1 w2] s] e].
  change (validate_inputs "UVL" (PyNum L) [PyNum s; PyNum e])
    with (validate_load L (UVL w1 w2 s e)).
  destruct (validate_load L (UVL w1 w2 s e)) as [[|] msg] eqn:E.
  - left. exists w1, w2, s, e. split; [reflexivity |].
    apply (valid_load_iff _ HL). split; [| exact Hord].
    rewrite E. f_equal.
    rewrite (@validate_range_eq L s e) in E by (right; eauto).
    destruct (Qc_leb L 0); [discriminate |].
    destruct (Qc_ltb s 0); [discriminate |].
    destruct (Qc_ltb L e); [discriminate |].
    destruct (Qc_eqb s e); [discriminate |]. now injection E.
  - right. now exists msg.
Qed.

Lemma add_point_outcome (L pm pl : Qc) (loads_list : list Load) :
  0 < L ->
  (add_point L pm pl loads_list = ((loads_list ++ [POINT pm pl])%list, None)
   /\ valid_load L (POINT pm pl))
  \/ (exists msg, add_point L pm pl loads_list = (loads_list, Some msg)).
Proof.
  intros HL. unfold add_point.
  change (validate_inputs "POINT" (PyNum L) [PyNum pl])
    with (validate_load L (POINT pm pl)).
  destruct (validate_load L (POINT pm pl)) as [[|] msg] eqn:E.
  - left. split; [reflexivity |].
    apply (valid_load_iff _ HL). split; [| apply Qcle_refl].
    rewrite E. f_equal.
    rewrite validate_point_eq in E.
    destruct (Qc_leb L 0); [discriminate |].
    destruct (_ || _); [discriminate |]. now injection E.
  - right. now exists msg.
Qed.

(** ** The centroid quotient of the sampler *)

Lemma Qclt_minus_neq_0 (s e : Qc) : s < e -> e - s <> 0.
Proof.
  intros H E. apply (proj1 (Qcminus_eq_0 _ _)) in E. rewrite E in H.
  exact (Qclt_irrefl H).
Qed.

(** The sampler's step for a linearly varying load past its start, up to the
    second division. *)
Lemma uvl_step_unfold (xi w1 w2 s e v m : Qc) :
  s < e -> s < xi ->
  let dx := pymin xi e - s in
  let w := w_clip xi w1 w2 s e in
  let f_slice := (w1 + w) / q 2 * dx in
  load_step xi (Finite v, Finite m) (UVL w1 w2 s e)
  = (c <- scalar_truediv (negb (Qc_ltb e xi))
            (Finite (q 2 * w1 + w)) (Finite (w1 + w)) ;;
     Ret (Finite (v - f_slice),
          ssub (Finite m)
            (smul (Finite f_slice)
               (ssub (Finite xi)
                  (sadd (Finite s) (smul (Finite (dx / q 3)) c)))))).
Proof.
  intros Hse Hsx dx w f_slice.
  assert (Hden : Qc_eqb (e - s) 0 = false)
    by (apply Qc_eqb_false; now apply Qclt_minus_neq_0).
  cbn [load_step]. unfold scalar_truediv at 1. qc_norm.
  rewrite (Qc_ltb_true Hsx), Hden. cbn [bind sadd ssub smul squot lift2].
  subst dx w f_slice. unfold w_clip. qc_norm. reflexivity.
Qed.

Lemma uvl_step_nonzero (xi w1 w2 s e v m : Qc) :
  s < e -> s < xi ->
  let dx := pymin xi e - s in
  let w := w_clip xi w1 w2 s e in
  let f_slice := (w1 + w) / q 2 * dx in
  let cent := dx / q 3 * ((q 2 * w1 + w) / (w1 + w)) in
  w1 + w <> 0 ->
  load_step xi (Finite v, Finite m) (UVL w1 w2 s e)
  = Ret (Finite (v - f_slice), Finite (m - f_slice * (xi - (s + cent)))).
Proof.
  intros Hse Hsx dx w f_slice cent Hw. subst dx w f_slice cent.
  rewrite (uvl_step_unfold w1 w2 v m Hse Hsx). cbv zeta.
  unfold scalar_truediv. cbn [eqb fromZ Qc_Num]. rewrite lit0.
  rewrite (Qc_eqb_false Hw). reflexivity.
Qed.

(** C3, as the code has it.  The quotient is evaluated without a guard.  For
    a load with [start < end] and a station past its start, the divisor is
    [w1 + w_clip]: when it is not zero the sampler subtracts the trapezoid
    resultant and its moment; when it is zero the division by zero is
    performed, and it raises [ZeroDivisionError] at a station past the end
    of the load and leaves a non-finite moment sample at a station within
    the load. *)
Theorem uvl_centroid_division (xi w1 w2 s e v m : Qc) :
  s < e -> s < xi ->
  let dx := pymin xi e - s in
  let w := w_clip xi w1 w2 s e in
  let f_slice := (w1 + w) / q 2 * dx in
  let cent := dx / q 3 * ((q 2 * w1 + w) / (w1 + w)) in
  (w1 + w <> 0 ->
     load_step xi (Finite v, Finite m) (UVL w1 w2 s e)
     = Ret (Finite (v - f_slice), Finite (m - f_slice * (xi - (s + cent)))))
  /\ (w1 + w = 0 -> e < xi ->
      load_step xi (Finite v, Finite m) (UVL w1 w2 s e)
      = Raise ZeroDivisionError)
  /\ (w1 + w = 0 -> xi <= e ->
      load_step xi (Finite v, Finite m) (UVL w1 w2 s e)
      = Ret (Finite (v - f_slice), NonFinite)).
Proof.
  intros Hse Hsx dx w f_slice cent.
  split; [now apply uvl_step_nonzero |]. subst dx w f_slice cent.
  rewrite (uvl_step_unfold w1 w2 v m Hse Hsx). cbv zeta.
  unfold scalar_truediv. cbn [eqb fromZ Qc_Num]. rewrite lit0.
  split.
  - intros Hw He. rewrite Hw, Qc_eqb_refl, (Qc_ltb_true He). reflexivity.
  - intros Hw He. rewrite Hw, Qc_eqb_refl, (Qc_ltb_false He). reflexivity.
Qed.

Lemma uvl_centroid_division_witness :
  load_step (q 9) (Finite (q 0), Finite (q 0)) (UVL (q 0) (q 0) (q 2) (q 8))
  = Raise ZeroDivisionError.
Proof.
  refine (proj1 (proj2 (@uvl_centroid_division (q 9) (q 0) (q 0) (q 2) (q 8)
                          (q 0) (q 0) _ _)) _ _); reflexivity.
Defined.

(** A linearly varying load accepted by validation, with both intensities
    zero: the sampler divides by zero, into a non-finite moment at a station
    within the load and into [ZeroDivisionError] past its end, which ends the
    whole analysis. *)
Lemma uvl_centroid_division_by_zero :
  validate_load (q 10) (UVL (q 0) (q 0) (q 2) (q 8)) = (true, NoMsg)
  /\ Qc_eqb (q 0 + w_clip (q 5) (q 0) (q 0) (q 2) (q 8)) 0 = true
  /\ load_step (q 5) (Finite (q 0), Finite (q 0)) (UVL (q 0) (q 0) (q 2) (q 8))
     = Ret (Finite (q 0 - q 0), NonFinite)
  /\ Qc_eqb (q 0 + w_clip (q 9) (q 0) (q 0) (q 2) (q 8)) 0 = true
  /\ load_step (q 9) (Finite (q 0), Finite (q 0)) (UVL (q 0) (q 0) (q 2) (q 8))
     = Raise ZeroDivisionError
  /\ calculate_analysis (q 10) (q 0) (q 10) "Simply Supported"
       [UVL (q 0) (q 0) (q 2) (q 8)]
     = Raise ZeroDivisionError.
Proof. repeat split. Qed.

(** ** The sampler against the solver on a whole linearly varying load *)

Lemma pymin_Qc_r (a b : Qc) : b <= a -> pymin a b = b.
Proof.
  intros H. unfold pymin. qc_ops.
  destruct (Qc_ltb_spec b a) as [Hlt | Hge]; [reflexivity |].
  apply Qcnot_lt_le in Hge. now apply Qcle_antisym.
Qed.

Lemma Qcabs_minus_lt (w1 w2 : Qc) : w1 < w2 -> Qcabs (w2 - w1) = w2 - w1.
Proof.
  intros H. apply Qcabs_pos. apply Qclt_le_weak in H.
  apply Qcle_minus_iff in H. exact H.
Qed.

Lemma Qcabs_minus_ge (w1 w2 : Qc) : w2 <= w1 -> Qcabs (w2 - w1) = w1 - w2.
Proof.
  intros H. rewrite Qcabs_Qcminus. apply Qcabs_pos.
  apply Qcle_minus_iff in H. exact H.
Qed.

(** The decomposition is the solver's: its force is [load_force] and its
    moment about [xi] is the opposite of the solver's moment about [xi]. *)
Lemma uvl_decomposition_solver (xi w1 w2 s e : Qc) :
  uvl_decomposition xi w1 w2 s e
  = (load_force (UVL w1 w2 s e), - load_moment xi (UVL w1 w2 s e)).
Proof.
  unfold uvl_decomposition, load_force, load_moment. qc_norm.
  destruct (Qc_ltb w1 w2); f_equal; qc_field.
Qed.

(** Past the end of the load the sampler subtracts the force of the
    decomposition, and a moment that is off by [(e - s)^2 * (w2 - w1) / 6]:
    its centroid [(dx/3) * (2*w1 + w_clip) / (w1 + w_clip)] is measured from
    the wrong end of the slice. *)
Lemma uvl_sampler_vs_decomposition (xi w1 w2 s e v m : Qc) :
  s < e -> e <= xi -> w1 + w2 <> 0 ->
  load_step xi (Finite v, Finite m) (UVL w1 w2 s e)
  = Ret (Finite (v - fst (uvl_decomposition xi w1 w2 s e)),
         Finite (m - (snd (uvl_decomposition xi w1 w2 s e)
                      + (e - s) * (e - s) * (w2 - w1) / q 6))).
Proof.
  intros Hse Hex Hw.
  assert (Hsx : s < xi) by (eapply Qclt_le_trans; eassumption).
  assert (Hlen : e - s <> 0) by now apply Qclt_minus_neq_0.
  assert (Hclip : w_clip xi w1 w2 s e = w2).
  { unfold w_clip. rewrite (pymin_Qc_r Hex). qc_ops. field. exact Hlen. }
  pose proof (@uvl_step_nonzero xi w1 w2 s e v m Hse Hsx) as Hstep.
  cbv zeta in Hstep.
  rewrite Hclip, (pymin_Qc_r Hex) in Hstep. rewrite (Hstep Hw).
  unfold uvl_decomposition, pymin. cbn [fst snd]. qc_norm.
  destruct (Qc_ltb_spec w1 w2) as [H12 | H12].
  - rewrite (Qcabs_minus_lt H12).
    rewrite (Qc_ltb_false (Qclt_le_weak _ _ H12)).
    apply f_equal, f_equal2; apply f_equal; qc_field.
  - apply Qcnot_lt_le in H12. rewrite (Qcabs_minus_ge H12).
    destruct (Qc_ltb_spec w2 w1) as [H21 | H21].
    + apply f_equal, f_equal2; apply f_equal; qc_field.
    + apply Qcnot_lt_le in H21.
      assert (E : w1 = w2) by now apply Qcle_antisym.
      subst w2. apply f_equal, f_equal2; apply f_equal; qc_field.
Qed.

(** C10 on the code: the linearly varying load 0 -> 10 kN/m over [2, 8],
    sampled at the station 8 where it is complete.  The sampler subtracts
    the force 30 and the moment 120 = 30 * (8 - 4); the solver's
    decomposition of the same load is the force 30 at the centroid 6, whose
    moment about the station is 60 = 30 * (8 - 6).  With this load alone on
    the simply supported beam of 10 m ([Ra = 12], [Rb = 18]) the sampled
    moment at the free end [x = L] is -60 instead of 0. *)
Theorem uvl_sampler_solver_mismatch :
  step_Q (load_step (q 8) (Finite (q 0), Finite (q 0))
            (UVL (q 0) (q 10) (q 2) (q 8)))
  = Ret (Some (-30 # 1)%Q, Some (-120 # 1)%Q)
  /\ this (fst (uvl_decomposition (q 8) (q 0) (q 10) (q 2) (q 8))) = (30 # 1)%Q
  /\ this (snd (uvl_decomposition (q 8) (q 0) (q 10) (q 2) (q 8))) = (60 # 1)%Q
  /\ this (load_force (UVL (q 0) (q 10) (q 2) (q 8))) = (30 # 1)%Q
  /\ this (load_moment (q 8) (UVL (q 0) (q 10) (q 2) (q 8))) = (-60 # 1)%Q
  /\ end_state (calculate_analysis (q 10) (q 0) (q 10) "Simply Supported"
                  [UVL (q 0) (q 10) (q 2) (q 8)])
     = Ret ((12 # 1)%Q, (18 # 1)%Q, Some (-60 # 1)%Q).
Proof. repeat split. Qed.

(** ** The order of the loads *)

Lemma ssub_0_l_twice (a d : sample (T:=Qc)) :
  ssub a (ssub (Finite 0) (ssub (Finite 0) d)) = ssub a d.
Proof.
  destruct a as [x |], d as [y |]; cbn [ssub lift2]; try reflexivity.
  qc_ops. f_equal. ring.
Qed.

Lemma ssub_comm (a d1 d2 : sample (T:=Qc)) :
  ssub (ssub a d1) d2 = ssub (ssub a d2) d1.
Proof.
  destruct a as [x |], d1 as [y |], d2 as [z |]; cbn [ssub lift2];
    try reflexivity.
  qc_ops. f_equal. ring.
Qed.

Lemma ssub_assoc_0 (a b : sample (T:=Qc)) :
  ssub a b = ssub a (ssub (Finite 0) (ssub (Finite 0) b)).
Proof. symmetry. apply ssub_0_l_twice. Qed.

(** A step of the sampler takes its effect off the accumulators. *)
Lemma load_step_effect (xi : Qc) (acc : sample * sample) (l : Load) :
  load_step xi acc l = (d <- load_effect xi l ;; Ret (take_off acc d)).
Proof.
  destruct acc as [v m]. unfold load_effect.
  destruct l as [mag loc | mag s e | w1 w2 s e]; cbn [load_start load_step];
    qc_ops.
  - destruct (Qc_ltb loc xi); cbn [bind take_off fst snd]; [| reflexivity].
    now rewrite <- !ssub_assoc_0.
  - destruct (Qc_ltb s xi); cbn [bind take_off fst snd]; [| reflexivity].
    now rewrite <- !ssub_assoc_0.
  - destruct (Qc_ltb s xi); cbn [bind take_off fst snd]; [| reflexivity].
    destruct (scalar_truediv _ _ _) as [r | ex]; cbn [bind]; [| reflexivity].
    destruct (scalar_truediv _ _ _) as [c | ex]; cbn [bind]; [| reflexivity].
    cbn [take_off fst snd]. now rewrite <- !ssub_assoc_0.
Qed.

Lemma scalar_truediv_raises (np : bool) (a b : sample (T:=Qc)) (ex : exn) :
  scalar_truediv np a b = Raise ex -> ex = ZeroDivisionError.
Proof.
  unfold scalar_truediv. destruct a, b; try discriminate.
  destruct (eqb _ _); [| discriminate]. destruct np; [discriminate |].
  now intros [= <-].
Qed.

Lemma load_effect_raises (xi : Qc) (l : Load) (ex : exn) :
  load_effect xi l = Raise ex -> ex = ZeroDivisionError.
Proof.
  unfold load_effect. destruct (Qc_ltb _ _); [| discriminate].
  destruct l as [mag loc | mag s e | w1 w2 s e]; cbn [load_step].
  - destruct (ltb _ _); discriminate.
  - destruct (ltb _ _); discriminate.
  - destruct (ltb _ _); [| discriminate].
    match goal with
    | |- context [scalar_truediv ?np ?a ?b] =>
        destruct (scalar_truediv np a b) as [r | ex1] eqn:E1; cbn [bind]
    end.
    + match goal with
      | |- context [scalar_truediv ?np ?a ?b] =>
          destruct (scalar_truediv np a b) as [c | ex2] eqn:E2; cbn [bind]
      end; [discriminate |].
      intros [= <-]. now apply scalar_truediv_raises in E2.
    + intros [= <-]. now apply scalar_truediv_raises in E1.
Qed.

Lemma take_off_comm (acc : sample * sample) (d1 d2 : option (sample * sample)) :
  take_off (take_off acc d1) d2 = take_off (take_off acc d2) d1.
Proof.
  destruct acc as [v m], d1 as [[dv1 dm1] |], d2 as [[dv2 dm2] |];
    cbn [take_off fst snd]; try reflexivity.
  f_equal; apply ssub_comm.
Qed.

(** Two steps of the sampler commute. *)
Lemma load_step_comm (xi : Qc) (acc : sample * sample) (x y : Load) :
  (a <- load_step xi acc y ;; load_step xi a x)
  = (a <- load_step xi acc x ;; load_step xi a y).
Proof.
  rewrite (load_step_effect xi acc y), (load_step_effect xi acc x).
  destruct (load_effect xi y) as [dy | ey] eqn:Ey;
    destruct (load_effect xi x) as [dx | ex] eqn:Ex; cbn [bind];
    rewrite ?load_step_effect, ?Ex, ?Ey; cbn [bind].
  - now rewrite take_off_comm.
  - reflexivity.
  - reflexivity.
  - apply load_effect_raises in Ex, Ey. now subst.
Qed.

Lemma foldM_load_step_perm (xi : Qc) (l1 l2 : list Load) :
  Permutation l1 l2 ->
  forall acc, foldM (load_step xi) l1 acc = foldM (load_step xi) l2 acc.
Proof.
  induction 1 as [| x l l' _ IH | x y l | l l' l'' _ IH1 _ IH2]; intros acc.
  - reflexivity.
  - cbn [foldM]. destruct (load_step xi acc x); cbn [bind]; [apply IH | reflexivity].
  - cbn [foldM].
    transitivity (a <- (a0 <- load_step xi acc y ;; load_step xi a0 x) ;;
                  foldM (load_step xi) l a).
    { destruct (load_step xi acc y); reflexivity. }
    rewrite load_step_comm.
    destruct (load_step xi acc x); reflexivity.
  - now rewrite IH1.
Qed.

Lemma fold_left_sum_perm (g : Load (T:=Qc) -> Qc) (l1 l2 : list Load) :
  Permutation l1 l2 ->
  forall a, fold_left (fun acc l => acc + g l) l1 a
            = fold_left (fun acc l => acc + g l) l2 a.
Proof.
  induction 1 as [| x l l' _ IH | x y l | l l' l'' _ IH1 _ IH2]; intros a.
  - reflexivity.
  - cbn [fold_left]. apply IH.
  - cbn [fold_left]. f_equal. ring.
  - now rewrite IH1.
Qed.

Lemma load_sums_perm (SupA : Qc) (l1 l2 : list Load) :
  Permutation l1 l2 -> load_sums SupA l1 = load_sums SupA l2.
Proof.
  intros H. rewrite !load_sums_totals.
  unfold total_moment, total_force, total_moment_from, total_force_from.
  f_equal.
  - apply (fold_left_sum_perm (load_moment SupA) H).
  - apply (fold_left_sum_perm load_force H).
Qed.

Lemma mapM_ext {A B : Type} (f g : A -> res B) (l : list A) :
  (forall a, f a = g a) -> mapM f l = mapM g l.
Proof.
  intros H. induction l as [| a l IH]; [reflexivity |].
  cbn [mapM]. now rewrite H, IH.
Qed.

(** C8, in exact arithmetic.  The analysis of a permutation of the loads is
    the analysis of the loads: the same reactions, the same shear and moment
    at every station, and the same exception if there is one. *)
Theorem analysis_permutation (L SupA SupB : Qc) (b_type : string)
    (l1 l2 : list Load) :
  Permutation l1 l2 ->
  reactions SupA SupB b_type l1 = reactions SupA SupB b_type l2
  /\ (forall Ra Rb Ma xi,
        station SupA SupB b_type l1 Ra Rb Ma xi
        = station SupA SupB b_type l2 Ra Rb Ma xi)
  /\ calculate_analysis L SupA SupB b_type l1
     = calculate_analysis L SupA SupB b_type l2.
Proof.
  intros H.
  assert (Hr : reactions SupA SupB b_type l1 = reactions SupA SupB b_type l2)
    by (unfold reactions; now rewrite (load_sums_perm SupA H)).
  assert (Hs : forall Ra Rb Ma xi,
             station SupA SupB b_type l1 Ra Rb Ma xi
             = station SupA SupB b_type l2 Ra Rb Ma xi).
  { intros Ra Rb Ma xi. unfold station.
    destruct (support_B _ _ _ _ _) as [v_val m_val].
    now apply foldM_load_step_perm. }
  split; [exact Hr |]. split; [exact Hs |].
  unfold calculate_analysis. rewrite Hr.
  destruct (reactions SupA SupB b_type l2) as [[[Ra Rb] Ma] | ex]; cbn [bind];
    [| reflexivity].
  now rewrite (mapM_ext _ _ _ (Hs Ra Rb Ma)).
Qed.

Lemma analysis_permutation_witness :
  calculate_analysis (q 10) (q 0) (q 10) "Simply Supported"
    [POINT (q 10) (q 5); UDL (q 5) (q 0) (q 10)]
  = calculate_analysis (q 10) (q 0) (q 10) "Simply Supported"
    [UDL (q 5) (q 0) (q 10); POINT (q 10) (q 5)].
Proof.
  apply (@analysis_permutation (q 10) (q 0) (q 10) "Simply Supported"
           [POINT (q 10) (q 5); UDL (q 5) (q 0) (q 10)]
           [UDL (q 5) (q 0) (q 10); POINT (q 10) (q 5)]).
  apply perm_swap.
Defined.

(** In binary64 the order shows: three point loads of 0.1, 0.2 and 0.3 kN at
    mid-span of a simply supported beam of 10 m give [Ra] one way round and
    a larger [Ra] the other way round. *)
Lemma analysis_permutation_binary64 :
  Permutation loads_123 loads_321
  /\ Ra_of (calculate_analysis 10%float 0%float 10%float "Simply Supported" loads_123)
     = Some 0x1.3333333333335p-2%float
  /\ Ra_of (calculate_analysis 10%float 0%float 10%float "Simply Supported" loads_321)
     = Some 0x1.3333333333333p-2%float
  /\ PrimFloat.ltb 0x1.3333333333333p-2%float 0x1.3333333333335p-2%float = true
  /\ calculate_analysis 10%float 0%float 10%float "Simply Supported" loads_123
     <> calculate_analysis 10%float 0%float 10%float "Simply Supported" loads_321.
Proof.
  split; [| split; [| split; [| split]]].
  - unfold loads_123, loads_321.
    eapply perm_trans; [apply perm_skip, perm_swap |].
    eapply perm_trans; [apply perm_swap |].
    apply perm_skip, perm_swap.
  - vm_compute. reflexivity.
  - vm_compute. reflexivity.
  - vm_compute. reflexivity.
  - intros H. apply (f_equal Ra_of) in H. vm_compute in H.
    apply (f_equal (fun o => match o with
                             | Some a => PrimFloat.eqb a 0x1.3333333333333p-2%float
                             | None => false
                             end)) in H.
    vm_compute in H. discriminate H.
Qed.

(** ** The two ends of a simply supported beam without overhang *)

(** The solver's moment is linear in the point it is taken about. *)
Lemma load_moment_shift (x : Qc) (l : Load) :
  load_moment x l = load_moment 0 l - load_force l * x.
Proof.
  destruct l as [f loc | w s e | w1 w2 s e]; cbn [load_moment load_force];
    qc_norm; ring.
Qed.

(** Every load of a valid set begins at or after the station 0. *)
Lemma valid_load_start (L : Qc) (l : Load) :
  valid_load L l -> 0 <= load_start l.
Proof. destruct l; cbn [valid_load load_start]; tauto. Qed.

Lemma foldM_not_engaged (xi : Qc) (loads : list Load) (acc : sample * sample) :
  Forall (fun l => xi <= load_start l) loads ->
  foldM (load_step xi) loads acc = Ret acc.
Proof.
  induction 1 as [| l loads Hl _ IH]; [reflexivity |].
  rewrite foldM_skip by now apply load_step_not_engaged. exact IH.
Qed.

(** A valid load without taper never divides by zero. *)
Lemma load_step_returns (L xi : Qc) (acc : sample * sample) (l : Load) :
  valid_load L l -> untapered l ->
  exists acc', load_step xi acc l = Ret acc'.
Proof.
  intros Hv Hu. destruct acc as [v_val m_val].
  destruct l as [mag loc | mag s e | w1 w2 s e]; cbn [load_step].
  - destruct (ltb loc xi); eexists; reflexivity.
  - destruct (ltb s xi); eexists; reflexivity.
  - destruct (ltb s xi); [| eexists; reflexivity].
    cbn [valid_load untapered] in Hv, Hu.
    destruct Hv as (_ & Hse & _). destruct Hu as [<- Hw].
    unfold scalar_truediv at 1. qc_norm.
    rewrite (Qc_eqb_false (Qclt_minus_neq_0 Hse)).
    cbn [bind sadd smul lift2]. unfold scalar_truediv. qc_norm.
    rewrite Qc_eqb_false; [eexists; reflexivity |].
    intros E.
    assert (E2 : (1 + 1) * w1 = 0) by (rewrite <- E; ring).
    apply Qcmult_integral in E2. destruct E2 as [E2 | E2]; [| contradiction].
    revert E2. qc_neq.
Qed.

Lemma foldM_returns (L xi : Qc) (loads : list Load) :
  Forall (valid_load L) loads -> Forall untapered loads ->
  forall acc, exists acc', foldM (load_step xi) loads acc = Ret acc'.
Proof.
  induction 1 as [| l loads Hl _ IH]; intros Hu acc.
  - eexists; reflexivity.
  - inversion Hu as [| ? ? Hul Hus]; subst.
    destruct (@load_step_returns L xi acc l Hl Hul) as [acc1 E1].
    destruct (IH Hus acc1) as [acc2 E2].
    exists acc2. cbn [foldM]. rewrite E1. exact E2.
Qed.

Lemma mapM_returns {A B : Type} (f : A -> res B) (l : list A) :
  (forall a, exists b, f a = Ret b) ->
  exists bs, mapM f l = Ret bs
             /\ forall i a, nth_error l i = Some a ->
                            exists b, nth_error bs i = Some b /\ f a = Ret b.
Proof.
  intros Hf. induction l as [| a l IH].
  - exists []. split; [reflexivity |]. intros [| i] a H; discriminate H.
  - destruct (Hf a) as [b Hb]. destruct IH as (bs & Hbs & Hnth).
    exists (b :: bs). split.
    + cbn [mapM]. rewrite Hb, Hbs. reflexivity.
    + intros [| i] a' H; cbn [nth_error] in *.
      * injection H as <-. exists b. split; [reflexivity | exact Hb].
      * now apply Hnth.
Qed.

(** At the last station a complete load takes off its force and its moment
    about the station, as the solver has them. *)
Lemma load_step_at_end (L v m : Qc) (l : Load) :
  valid_load L l -> ~ acts_at L l -> untapered l ->
  load_step L (Finite v, Finite m) l
  = Ret (Finite (v - load_force l),
         Finite (m - (load_force l * L - load_moment 0 l))).
Proof.
  intros Hv Ha Hu.
  destruct l as [mag loc | mag s e | w1 w2 s e];
    cbn [valid_load acts_at untapered] in Hv, Ha, Hu.
  - destruct Hv as [_ HlocL].
    assert (Hlt : loc < L).
    { apply Qcle_lt_or_eq in HlocL. destruct HlocL; [assumption | contradiction]. }
    cbn [load_step load_force load_moment]. qc_norm. rewrite (Qc_ltb_true Hlt). cbn [ssub lift2]. qc_ops.
    apply f_equal, f_equal2; apply f_equal; ring.
  - destruct Hv as (_ & Hse & HeL).
    assert (Hlt : s < L) by (eapply Qclt_le_trans; eassumption).
    cbn [load_step load_force load_moment]. rewrite (pymin_Qc_r HeL).
    qc_norm. rewrite (Qc_ltb_true Hlt). cbn [ssub lift2]. qc_ops.
    apply f_equal, f_equal2; apply f_equal; qc_field.
  - destruct Hv as (_ & Hse & HeL). destruct Hu as [<- Hw].
    assert (Hww : w1 + w1 <> 0).
    { intros E. assert (E2 : (1 + 1) * w1 = 0) by (rewrite <- E; ring).
      apply Qcmult_integral in E2. destruct E2 as [E2 | E2]; [| contradiction].
      revert E2. qc_neq. }
    rewrite (uvl_sampler_vs_decomposition v m Hse HeL Hww).
    rewrite uvl_decomposition_solver. cbn [fst snd].
    rewrite (load_moment_shift L). qc_norm.
    apply f_equal, f_equal2; apply f_equal; qc_field.
Qed.

Lemma foldM_at_end (L : Qc) (loads : list Load) :
  Forall (valid_load L) loads ->
  Forall (fun l => ~ acts_at L l) loads ->
  Forall untapered loads ->
  forall v m F0 M0,
    foldM (load_step L) loads (Finite v, Finite m)
    = Ret (Finite (v - (total_force_from F0 loads - F0)),
           Finite (m - ((total_force_from F0 loads - F0) * L
                        - (total_moment_from 0 M0 loads - M0)))).
Proof.
  induction 1 as [| l loads Hl _ IH]; intros Ha Hu v m F0 M0.
  - cbn [foldM total_force_from total_moment_from fold_left].
    apply f_equal, f_equal2; apply f_equal; ring.
  - inversion Ha as [| ? ? Hal Has]; inversion Hu as [| ? ? Hul Hus]; subst.
    cbn [foldM]. rewrite (@load_step_at_end L v m l Hl Hal Hul). cbn [bind].
    rewrite (IH Has Hus _ _ (F0 + load_force l) (M0 + load_moment 0 l)).
    unfold total_force_from, total_moment_from. cbn [fold_left]. qc_ops.
    apply f_equal, f_equal2; apply f_equal; ring.
Qed.

Lemma linspace_first (L : Qc) :
  nth_error (linspace (fromZ 0) L 500) 0 = Some 0.
Proof.
  unfold linspace. cbn [seq map nth_error Nat.sub Nat.eqb].
  qc_ops. change (Q2Qc (inject_Z (Z.of_nat 0))) with 0. qc_lits.
  destruct (Qc_eqb _ _); apply f_equal; unfold Qcdiv; ring.
Qed.

Lemma linspace_last (L : Qc) :
  nth_error (linspace (fromZ 0) L 500) 499 = Some L.
Proof.
  unfold linspace. rewrite nth_error_map.
  rewrite nth_error_seq. reflexivity.
Qed.

Lemma station_at_start (L Ra Rb Ma : Qc) (b_type : string) (loads : list Load) :
  0 < L -> Forall (valid_load L) loads ->
  station 0 L b_type loads Ra Rb Ma 0 = Ret (Finite 0, Finite 0).
Proof.
  intros HL Hv. unfold station, support_A, support_B. qc_norm.
  rewrite Qc_ltb_irrefl, (Qc_ltb_false (Qclt_le_weak _ _ HL)), andb_false_r.
  apply foldM_not_engaged.
  eapply Forall_impl; [| exact Hv]. intros l. apply valid_load_start.
Qed.

Lemma mapM_length {A B : Type} (f : A -> res B) (l : list A) :
  forall bs, mapM f l = Ret bs -> List.length bs = List.length l.
Proof.
  induction l as [| a l IH]; intros bs; cbn [mapM].
  - now intros [= <-].
  - destruct (f a) as [b | ex]; cbn [bind]; [| discriminate].
    destruct (mapM f l) as [bs' | ex]; cbn [bind]; [| discriminate].
    intros [= <-]. cbn [List.length]. now rewrite (IH bs').
Qed.

Lemma mapM_nth {A B : Type} (f : A -> res B) (l : list A) :
  forall bs, mapM f l = Ret bs ->
  forall i a, nth_error l i = Some a ->
              exists b, nth_error bs i = Some b /\ f a = Ret b.
Proof.
  induction l as [| a l IH]; intros bs; cbn [mapM].
  - intros _ [| i] a H; discriminate H.
  - destruct (f a) as [b | ex] eqn:Ea; cbn [bind]; [| discriminate].
    destruct (mapM f l) as [bs' | ex]; cbn [bind]; [| discriminate].
    intros [= <-] [| i] a' H; cbn [nth_error] in *.
    + injection H as <-. now exists b.
    + now apply (IH bs').
Qed.

(** What a returning analysis is made of. *)
Lemma calculate_analysis_inv (L SupA SupB : Qc) (b_type : string)
    (loads : list Load) (r : Analysis) :
  calculate_analysis L SupA SupB b_type loads = Ret r ->
  exists VM,
    reactions SupA SupB b_type loads = Ret (out_Ra r, out_Rb r, out_Ma r)
    /\ out_x r = linspace (fromZ 0) L 500
    /\ mapM (station SupA SupB b_type loads (out_Ra r) (out_Rb r) (out_Ma r))
         (out_x r) = Ret VM
    /\ out_V r = map fst VM
    /\ out_M r = map snd VM.
Proof.
  unfold calculate_analysis.
  destruct (reactions SupA SupB b_type loads) as [[[ra rb] ma] | ex];
    cbn [bind]; [| discriminate].
  destruct (mapM _ _) as [VM | ex] eqn:E; cbn [bind]; [| discriminate].
  intros [= <-]. exists VM. cbn [out_x out_V out_M out_Ra out_Rb out_Ma].
  repeat split; try reflexivity. exact E.
Qed.

(** Each station's samples are what the loop body computes there. *)
Lemma calculate_analysis_station (L SupA SupB : Qc) (b_type : string)
    (loads : list Load) (r : Analysis) (i : nat) (xi : Qc) :
  calculate_analysis L SupA SupB b_type loads = Ret r ->
  nth_error (out_x r) i = Some xi ->
  exists v m,
    station SupA SupB b_type loads (out_Ra r) (out_Rb r) (out_Ma r) xi
    = Ret (v, m)
    /\ nth_error (out_V r) i = Some v
    /\ nth_error (out_M r) i = Some m.
Proof.
  intros Hr Hx. apply calculate_analysis_inv in Hr.
  destruct Hr as (VM & _ & _ & HVM & HV & HM).
  destruct (mapM_nth _ _ HVM _ Hx) as ([v m] & Hb & Hs).
  exists v, m. rewrite HV, HM, !nth_error_map, Hb. now repeat split.
Qed.

(** At the last station a load that is complete there takes off its force
    and its moment about the station, as the solver has them, and, if it is
    a linearly varying load, the offset of the sampler's centroid besides. *)
Lemma load_step_at_end_offset (L v m : Qc) (l : Load) :
  valid_load L l -> ~ acts_at L l -> nonzero_sum l ->
  load_step L (Finite v, Finite m) l
  = Ret (Finite (v - load_force l),
         Finite (m - (load_force l * L - load_moment 0 l) - taper_offset l)).
Proof.
  intros Hv Ha Hw.
  destruct l as [mag loc | mag s e | w1 w2 s e].
  - rewrite (@load_step_at_end L v m _ Hv Ha I). cbn [taper_offset].
    apply f_equal, f_equal2; apply f_equal; ring.
  - rewrite (@load_step_at_end L v m _ Hv Ha I). cbn [taper_offset].
    apply f_equal, f_equal2; apply f_equal; ring.
  - cbn [valid_load nonzero_sum] in Hv, Hw. destruct Hv as (_ & Hse & HeL).
    rewrite (uvl_sampler_vs_decomposition v m Hse HeL Hw).
    rewrite uvl_decomposition_solver. cbn [fst snd taper_offset].
    rewrite (load_moment_shift L).
    apply f_equal, f_equal2; apply f_equal; ring.
Qed.

Lemma foldM_at_end_offset (L : Qc) (loads : list Load) :
  Forall (valid_load L) loads ->
  Forall (fun l => ~ acts_at L l) loads ->
  Forall nonzero_sum loads ->
  forall v m F0 M0,
    foldM (load_step L) loads (Finite v, Finite m)
    = Ret (Finite (v - (total_force_from F0 loads - F0)),
           Finite (m - ((total_force_from F0 loads - F0) * L
                        - (total_moment_from 0 M0 loads - M0))
                   - total_taper_offset loads)).
Proof.
  induction 1 as [| l loads Hl _ IH]; intros Ha Hw v m F0 M0.
  - cbn [foldM total_force_from total_moment_from fold_left
         total_taper_offset].
    apply f_equal, f_equal2; apply f_equal; ring.
  - inversion Ha as [| ? ? Hal Has]; inversion Hw as [| ? ? Hwl Hws]; subst.
    cbn [foldM]. rewrite (@load_step_at_end_offset L v m l Hl Hal Hwl).
    cbn [bind].
    rewrite (IH Has Hws _ _ (F0 + load_force l) (M0 + load_moment 0 l)).
    unfold total_force_from, total_moment_from.
    cbn [fold_left total_taper_offset]. qc_ops.
    apply f_equal, f_equal2; apply f_equal; ring.
Qed.

Lemma station_at_end (L Rb : Qc) (b_type : string) (loads : list Load) :
  0 < L ->
  Forall (valid_load L) loads ->
  Forall (fun l => ~ acts_at L l) loads ->
  Forall nonzero_sum loads ->
  let F := total_force loads in
  let M := total_moment 0 loads in
  station 0 L b_type loads (F - M / (L - 0)) Rb 0 L
  = Ret (Finite (- (M / (L - 0))), Finite (- total_taper_offset loads)).
Proof.
  intros HL Hv Ha Hw F M. unfold station, support_A, support_B. qc_norm.
  rewrite (Qc_ltb_true HL), Qc_ltb_irrefl, andb_false_r.
  rewrite (foldM_at_end_offset Hv Ha Hw _ _ 0 0).
  assert (HL0 : L <> 0) by (intros ->; exact (Qclt_irrefl HL)).
  subst F M. unfold total_force, total_moment. qc_norm.
  apply f_equal, f_equal2; apply f_equal; qc_field.
Qed.

(** Loads without taper: none has intensities that cancel, and the sampler
    is off by nothing. *)
Lemma untapered_no_offset (loads : list Load) :
  Forall untapered loads ->
  Forall nonzero_sum loads /\ total_taper_offset loads = 0.
Proof.
  induction 1 as [| l loads Hl _ [IHw IHo]]; [now split |].
  cbn [total_taper_offset]. rewrite IHo.
  destruct l as [mag loc | mag s e | w1 w2 s e];
    cbn [untapered taper_offset] in *.
  - split; [now constructor | ring].
  - split; [now constructor | ring].
  - destruct Hl as [<- Hw]. split.
    + constructor; [| exact IHw]. cbn [nonzero_sum]. intros E.
      assert (E2 : (1 + 1) * w1 = 0) by (rewrite <- E; ring).
      apply Qcmult_integral in E2. destruct E2 as [E2 | E2]; [| contradiction].
      revert E2. qc_neq.
    + unfold Qcdiv. ring.
Qed.

(** C7 on the code.  On a simply supported beam with [SupA = 0] and
    [SupB = L > 0], for valid loads, whenever the analysis returns: at the
    first station [x = 0] the shear and the moment are what support A
    contributes there, which is nothing, as no load is engaged and the
    support itself is not yet passed.  At the last station [x = L], when no
    point load acts at [L] and no linearly varying load has intensities that
    cancel, the moment is minus the sum, over the linearly varying loads, of
    [(end - start)^2 * (w2 - w1) / 6]: the sampler's centroid is the distance
    from the wrong end of the load.  It is 0 for loads without taper, and
    it is -60 for the load 0 -> 10 kN/m over [2, 8] on a beam of 10 m, where
    the claim has it approximately 0. *)
Theorem boundary_values (L : Qc) (b_type : string) (loads : list Load)
    (r : Analysis) :
  0 < L -> b_type <> "Cantilever" ->
  Forall (valid_load L) loads ->
  calculate_analysis L 0 L b_type loads = Ret r ->
  nth_error (out_x r) 0 = Some 0
  /\ nth_error (out_V r) 0
     = Some (Finite (fst (support_A 0 (out_Ra r) (out_Ma r) 0 (0, 0))))
  /\ nth_error (out_M r) 0
     = Some (Finite (snd (support_A 0 (out_Ra r) (out_Ma r) 0 (0, 0))))
  /\ nth_error (out_V r) 0 = Some (Finite 0)
  /\ nth_error (out_M r) 0 = Some (Finite 0)
  /\ nth_error (out_x r) 499 = Some L
  /\ (Forall (fun l => ~ acts_at L l) loads ->
      Forall nonzero_sum loads ->
      nth_error (out_M r) 499 = Some (Finite (- total_taper_offset loads)))
  /\ (Forall (fun l => ~ acts_at L l) loads ->
      Forall untapered loads ->
      nth_error (out_M r) 499 = Some (Finite 0))
  /\ - total_taper_offset [UVL (q 0) (q 10) (q 2) (q 8)] = - q 60.
Proof.
  intros HL Hb Hv Hr.
  assert (HL0 : L <> 0) by (intros ->; exact (Qclt_irrefl HL)).
  assert (Hx : out_x r = linspace (fromZ 0) L 500).
  { apply calculate_analysis_inv in Hr. now destruct Hr as (_ & _ & -> & _). }
  assert (Hx0 : nth_error (out_x r) 0 = Some 0)
    by (rewrite Hx; apply linspace_first).
  assert (HxL : nth_error (out_x r) 499 = Some L)
    by (rewrite Hx; apply linspace_last).
  destruct (calculate_analysis_station _ _ _ _ _ _ Hr Hx0)
    as (v0 & m0 & Hs0 & HV0 & HM0).
  destruct (calculate_analysis_station _ _ _ _ _ _ Hr HxL)
    as (vL & mL & HsL & HVL & HML).
  rewrite (station_at_start _ _ _ _ HL Hv) in Hs0. injection Hs0 as <- <-.
  pose proof (calculate_analysis_reactions _ _ _ _ _ Hr) as Hreac.
  rewrite (reactions_simply_supported _ Hb HL0) in Hreac.
  injection Hreac as HRa HRb HMa.
  assert (HendM : Forall (fun l => ~ acts_at L l) loads ->
                  Forall nonzero_sum loads ->
                  nth_error (out_M r) 499
                  = Some (Finite (- total_taper_offset loads))).
  { intros Ha Hw. rewrite <- HRa, <- HMa in HsL.
    rewrite (station_at_end _ b_type HL Hv Ha Hw) in HsL.
    injection HsL as _ <-. exact HML. }
  unfold support_A. qc_ops. rewrite Qc_ltb_irrefl. cbn [fst snd].
  repeat (split; [assumption |]). split.
  - intros Ha Hu. destruct (untapered_no_offset Hu) as [Hw Ho].
    rewrite (HendM Ha Hw), Ho. apply f_equal, f_equal. ring.
  - apply Qc_is_canon. reflexivity.
Qed.

Lemma boundary_values_witness :
  match calculate_analysis (q 10) 0 (q 10) "Simply Supported"
          [UVL (q 0) (q 10) (q 2) (q 8)] with
  | Ret r => nth_error (out_V r) 0 = Some (Finite 0)
             /\ nth_error (out_M r) 0 = Some (Finite 0)
             /\ nth_error (out_M r) 499 = Some (Finite (- q 60))
  | Raise _ => False
  end.
Proof.
  destruct (calculate_analysis (q 10) 0 (q 10) "Simply Supported"
              [UVL (q 0) (q 10) (q 2) (q 8)]) as [r | ex] eqn:E.
  - destruct (@boundary_values (q 10) "Simply Supported"
                [UVL (q 0) (q 10) (q 2) (q 8)] r)
      as (_ & _ & _ & HV0 & HM0 & _ & HML & _ & H60).
    + reflexivity.
    + discriminate.
    + apply Forall_cons; [| apply Forall_nil]. cbn [valid_load].
      repeat split; qc_cmp_closed.
    + exact E.
    + split; [exact HV0 |]. split; [exact HM0 |]. rewrite <- H60.
      apply HML.
      * apply Forall_cons; [| apply Forall_nil]. cbn [acts_at]. tauto.
      * apply Forall_cons; [| apply Forall_nil]. cbn [nonzero_sum]. qc_neq.
  - vm_compute in E. discriminate E.
Defined.

(** A valid linearly varying load whose end intensities cancel: nothing acts
    at [L], and the analysis has no moment at [L], it raises. *)
Lemma boundary_values_division_by_zero :
  validate_load (q 10) (UVL (q (-5)) (q 5) (q 2) (q 8)) = (true, NoMsg)
  /\ valid_load (q 10) (UVL (q (-5)) (q 5) (q 2) (q 8))
  /\ ~ acts_at (q 10) (UVL (q (-5)) (q 5) (q 2) (q 8))
  /\ calculate_analysis (q 10) (q 0) (q 10) "Simply Supported"
       [UVL (q (-5)) (q 5) (q 2) (q 8)]
     = Raise ZeroDivisionError.
Proof.
  split; [reflexivity |]. split; [| split].
  - cbn [valid_load]. repeat split; qc_cmp_closed.
  - cbn [acts_at]. tauto.
  - vm_compute. reflexivity.
Qed.

(** The same intensities on a load that ends at [L]: the analysis returns,
    and the moment at [L] is not a number. *)
Lemma boundary_values_nan_at_end :
  valid_load (q 10) (UVL (q (-5)) (q 5) (q 2) (q 10))
  /\ match calculate_analysis (q 10) (q 0) (q 10) "Simply Supported"
             [UVL (q (-5)) (q 5) (q 2) (q 10)] with
     | Ret r => nth_error (out_M r) 499 = Some NonFinite
     | Raise _ => False
     end.
Proof.
  split.
  - cbn [valid_load]. repeat split; qc_cmp_closed.
  - vm_compute. reflexivity.
Qed.

(** * Further properties of the code *)

(** ** Equilibrium of the reactions *)

Lemma truediv_Qc_inv (a b c : Qc) :
  truediv a b = Ret c -> b <> 0 /\ c = a / b.
Proof.
  unfold truediv. qc_norm. destruct (Qc_eqb_spec b 0); [discriminate |].
  intros [= <-]. now split.
Qed.

Lemma reactions_inv (SupA SupB Ra Rb Ma : Qc) (b_type : string)
    (loads : list Load) :
  reactions SupA SupB b_type loads = Ret (Ra, Rb, Ma) ->
  (b_type = "Cantilever"
   /\ Ra = total_force loads /\ Rb = 0 /\ Ma = total_moment SupA loads)
  \/ (b_type <> "Cantilever" /\ SupB - SupA <> 0
      /\ Ra = total_force loads - total_moment SupA loads / (SupB - SupA)
      /\ Rb = total_moment SupA loads / (SupB - SupA) /\ Ma = 0).
Proof.
  unfold reactions. rewrite load_sums_totals.
  destruct (String.eqb_spec b_type "Cantilever") as [Hb | Hb].
  - intros [= <- <- <-]. left. now repeat split.
  - destruct (truediv _ _) as [rb | ex] eqn:E; cbn [bind]; [| discriminate].
    intros [= <- <- <-]. apply truediv_Qc_inv in E. destruct E as [Hd ->].
    right. now repeat split.
Qed.

(** Whenever the solver returns, its reactions balance the loads: the two
    forces add up to the total load, and the moment of [Rb] about support A
    together with the fixing moment equals the total moment of the loads
    about A.  [Rb] is zero for a cantilever and [Ma] is zero otherwise. *)
Theorem reactions_equilibrium (SupA SupB Ra Rb Ma : Qc) (b_type : string)
    (loads : list Load) :
  reactions SupA SupB b_type loads = Ret (Ra, Rb, Ma) ->
  Ra + Rb = total_force loads
  /\ Rb * (SupB - SupA) + Ma = total_moment SupA loads
  /\ (b_type = "Cantilever" -> Rb = 0)
  /\ (b_type <> "Cantilever" -> Ma = 0 /\ SupB <> SupA).
Proof.
  intros Hr.
  destruct (reactions_inv _ _ _ _ Hr)
    as [(Hb & -> & -> & ->) | (Hb & Hd & -> & -> & ->)].
  - split; [ring |]. split; [ring |].
    split; [reflexivity | intros Hn; contradiction].
  - split; [ring |]. split; [field; exact Hd |].
    split; [intros Hc; contradiction |].
    intros _. split; [reflexivity |].
    intros E. apply Hd. rewrite E. ring.
Qed.

Lemma reactions_equilibrium_witness :
  match reactions (q 0) (q 10) "Simply Supported" [POINT (q 10) (q 5)] with
  | Ret (Ra, Rb, Ma) => Ra + Rb = total_force [POINT (q 10) (q 5)]
  | Raise _ => False
  end.
Proof.
  destruct (reactions (q 0) (q 10) "Simply Supported" [POINT (q 10) (q 5)])
    as [[[Ra Rb] Ma] | ex] eqn:E.
  - apply (@reactions_equilibrium _ _ _ _ _ _ _ E).
  - vm_compute in E. discriminate E.
Defined.

(** ** The flag and the message of a validation *)

Section GenericValidation.

Context {T : Type} `{NumT : Num T}.

Lemma validate_body_flag (load_type : string) (L : pyval) (args : list pyval)
    (b : bool) (m : Msg (T:=T)) :
  validate_body load_type L args = Ret (b, m) -> (b = true <-> m = NoMsg).
Proof.
  unfold validate_body.
  destruct (as_num L) as [l | ex]; cbn [bind]; [| discriminate].
  destruct (leb l (fromZ 0)); [intros [= <- <-]; split; discriminate |].
  destruct (String.eqb load_type "POINT").
  - destruct (arg args 0) as [loc | ex]; cbn [bind]; [| discriminate].
    destruct (as_num loc) as [x | ex]; cbn [bind]; [| discriminate].
    destruct (_ || _); intros [= <- <-]; split; (discriminate || reflexivity).
  - destruct (_ || _); [| intros [= <- <-]; split; reflexivity].
    destruct (arg args 0) as [s | ex]; cbn [bind]; [| discriminate].
    destruct (arg args 1) as [e | ex]; cbn [bind]; [| discriminate].
    destruct (as_num s) as [sx | ex]; cbn [bind]; [| discriminate].
    destruct (ltb sx (fromZ 0)); [intros [= <- <-]; split; discriminate |].
    destruct (as_num e) as [ex' | ex]; cbn [bind]; [| discriminate].
    destruct (ltb l ex'); [intros [= <- <-]; split; discriminate |].
    destruct (eqb sx ex'); intros [= <- <-]; split;
      (discriminate || reflexivity).
Qed.

(** In any arithmetic and for any arguments, [validate_inputs] accepts
    exactly when its message is empty, and rejects exactly when the message
    has an error kind; so a caller may test either. *)
Theorem validate_inputs_flag_message (load_type : string) (L : pyval)
    (args : list pyval) :
  (fst (validate_inputs load_type L args) = true
   <-> snd (validate_inputs load_type L args) = NoMsg (T:=T))
  /\ (fst (validate_inputs load_type L args) = false
      <-> exists k, kind_of (snd (validate_inputs load_type L args)) = Some k)
  /\ (forall fmt,
        fst (validate_inputs load_type L args) = true
        <-> msg_text fmt (snd (validate_inputs load_type L args)) = ""%string).
Proof.
  unfold validate_inputs.
  destruct (validate_body load_type L args) as [[b m] | ex] eqn:E.
  - apply validate_body_flag in E. cbn [fst snd].
    split; [exact E |]. split.
    + split.
      * intros ->. destruct m; cbn [kind_of]; eauto.
        destruct E as [_ E]. specialize (E eq_refl). discriminate.
      * intros [k Hk]. destruct b; [| reflexivity].
        destruct E as [E _]. rewrite (E eq_refl) in Hk. discriminate.
    + intros fmt. split.
      * intros Hb. apply E in Hb. now subst.
      * intros Hm. apply E. destruct m; cbn [msg_text] in Hm;
          try reflexivity; discriminate.
  - cbn [fst snd kind_of msg_text]. repeat split; try discriminate; eauto.
Qed.

End GenericValidation.

(** ** The list of loads across clicks *)

Section GenericSession.

Context {T : Type} `{NumT : Num T}.

Lemma pop_in_range (i : nat) (loads_list : list (Load (T:=T))) :
  (i < List.length loads_list)%nat ->
  pop i loads_list = Ret (firstn i loads_list ++ skipn (S i) loads_list)%list.
Proof.
  intros H. unfold pop. apply Nat.ltb_lt in H. now rewrite H.
Qed.

(** Deleting the row [i] of the list: within the list it never raises, the
    list gets one shorter, the rows before [i] stay and the rows after it
    move up by one; past the end it is an [IndexError].  Deleting the row
    that a load was just appended as gives the list back. *)
Theorem pop_spec (i : nat) (l : Load (T:=T)) (loads_list : list (Load (T:=T))) :
  ((i < List.length loads_list)%nat ->
     exists rest,
       pop i loads_list = Ret rest
       /\ S (List.length rest) = List.length loads_list
       /\ (forall j, (j < i)%nat -> nth_error rest j = nth_error loads_list j)
       /\ (forall j, (i <= j)%nat ->
             nth_error rest j = nth_error loads_list (S j)))
  /\ ((List.length loads_list <= i)%nat ->
      pop i loads_list = Raise IndexError)
  /\ pop (List.length loads_list) (loads_list ++ [l])%list = Ret loads_list
  /\ on_click (fromZ 0) (loads_list ++ [l])%list (Del (List.length loads_list))
     = Ret loads_list.
Proof.
  assert (Hlast : pop (List.length loads_list) (loads_list ++ [l])%list
                  = Ret loads_list).
  { rewrite pop_in_range by (rewrite length_app; cbn; lia).
    rewrite firstn_app, Nat.sub_diag, firstn_all. cbn [firstn].
    rewrite skipn_all2 by (rewrite length_app; cbn; lia).
    now rewrite !app_nil_r. }
  split; [| split; [| split; [exact Hlast | exact Hlast]]].
  - intros H. eexists. split; [now apply pop_in_range |].
    split; [| split].
    + rewrite length_app, length_firstn, length_skipn. lia.
    + intros j Hj. rewrite nth_error_app1 by (rewrite length_firstn; lia).
      now rewrite nth_error_firstn, (proj2 (Nat.ltb_lt _ _) Hj).
    + intros j Hj. rewrite nth_error_app2 by (rewrite length_firstn; lia).
      rewrite length_firstn, nth_error_skipn. f_equal. lia.
  - intros H. unfold pop. apply Nat.ltb_ge in H. now rewrite H.
Qed.

End GenericSession.

Lemma pop_spec_witness :
  exists rest,
    pop 1 [POINT (q 1) (q 2); POINT (q 3) (q 4); POINT (q 5) (q 6)] = Ret rest
    /\ S (List.length rest) = 3%nat.
Proof.
  destruct (proj1 (@pop_spec Qc _ 1 (POINT (q 0) (q 0))
                     [POINT (q 1) (q 2); POINT (q 3) (q 4); POINT (q 5) (q 6)]))
    as (rest & H1 & H2 & _).
  - cbn. lia.
  - exists rest. split; [exact H1 | exact H2].
Defined.

Lemma validate_load_true (L : Qc) (l : Load) (msg : Msg) :
  validate_load L l = (true, msg) -> msg = NoMsg.
Proof.
  destruct l as [mag loc | w s e | w1 w2 s e];
    [rewrite validate_point_eq
    | rewrite (@validate_range_eq L s e) by (left; eauto)
    | rewrite (@validate_range_eq L s e) by (right; eauto)];
    repeat match goal with
           | |- context [if ?b then _ else _] => destruct b
           end; intros [= <-]; reflexivity.
Qed.

Lemma validate_load_cases (L : Qc) (l : Load) :
  0 < L -> load_start l <= load_end l ->
  (valid_load L l /\ validate_load L l = (true, NoMsg))
  \/ (~ valid_load L l /\ exists msg, validate_load L l = (false, msg)).
Proof.
  intros HL Hord. destruct (validate_load L l) as [[|] msg] eqn:E.
  - left. pose proof (validate_load_true _ _ E) as ->.
    split; [| reflexivity]. apply (valid_load_iff _ HL). now split.
  - right. split; [| now exists msg].
    intros Hv. apply (valid_load_iff _ HL) in Hv. destruct Hv as [Hv _].
    rewrite E in Hv. discriminate.
Qed.

(** What an "Add" click does, on a beam of length [L > 0].  The range is put
    in order first; the load is appended, with no message, exactly when it
    then lies on the beam ([0 <= loc <= L], or [0 <= start < end <= L]);
    otherwise the list is left as it is and a message is shown. *)
Theorem add_click_outcome (L pm pl um us ue vm1 vm2 vs ve : Qc)
    (loads_list : list Load) :
  0 < L ->
  (* point load *)
  (valid_load L (POINT pm pl) ->
     add_point L pm pl loads_list = ((loads_list ++ [POINT pm pl])%list, None))
  /\ (~ valid_load L (POINT pm pl) ->
      exists msg, add_point L pm pl loads_list = (loads_list, Some msg))
  (* uniform load *)
  /\ (let '(s, e) := swap_udl (us, ue) in
      (valid_load L (UDL um s e) ->
         add_udl L um us ue loads_list
         = ((loads_list ++ [UDL um s e])%list, None))
      /\ (~ valid_load L (UDL um s e) ->
          exists msg, add_udl L um us ue loads_list = (loads_list, Some msg)))
  (* linearly varying load *)
  /\ (let '(w1, w2, s, e) := swap_uvl (vm1, vm2, vs, ve) in
      (valid_load L (UVL w1 w2 s e) ->
         add_uvl L vm1 vm2 vs ve loads_list
         = ((loads_list ++ [UVL w1 w2 s e])%list, None))
      /\ (~ valid_load L (UVL w1 w2 s e) ->
          exists msg,
            add_uvl L vm1 vm2 vs ve loads_list = (loads_list, Some msg))).
Proof.
  intros HL. split; [| split; [| split]].
  - intros Hv. unfold add_point.
    change (validate_inputs "POINT" (PyNum L) [PyNum pl])
      with (validate_load L (POINT pm pl)).
    apply (valid_load_iff _ HL) in Hv. destruct Hv as [-> _]. reflexivity.
  - intros Hv. unfold add_point.
    change (validate_inputs "POINT" (PyNum L) [PyNum pl])
      with (validate_load L (POINT pm pl)).
    destruct (@validate_load_cases L (POINT pm pl) HL (Qcle_refl _))
      as [[Hv' _] | [_ [msg ->]]]; [contradiction | now exists msg].
  - pose proof (swap_spec_order_udl us ue) as Hord. unfold add_udl.
    destruct (swap_udl (us, ue)) as [s e]. cbn [fst snd] in Hord.
    change (validate_inputs "UDL" (PyNum L) [PyNum s; PyNum e])
      with (validate_load L (UDL um s e)).
    destruct (@validate_load_cases L (UDL um s e) HL Hord)
      as [[Hv ->] | [Hv [msg ->]]]; split; intros Hv';
      try contradiction; [reflexivity | now exists msg].
  - pose proof (swap_spec_order_uvl vm1 vm2 vs ve) as Hord. unfold add_uvl.
    destruct (swap_uvl (vm1, vm2, vs, ve)) as [[[w1 w2] s] e].
    change (validate_inputs "UVL" (PyNum L) [PyNum s; PyNum e])
      with (validate_load L (UVL w1 w2 s e)).
    destruct (@validate_load_cases L (UVL w1 w2 s e) HL Hord)
      as [[Hv ->] | [Hv [msg ->]]]; split; intros Hv';
      try contradiction; [reflexivity | now exists msg].
Qed.

Lemma add_click_outcome_witness :
  add_udl (q 10) (q 5) (q 8) (q 2) [] = ([UDL (q 5) (q 2) (q 8)]%list, None).
Proof.
  assert (HL : 0 < q 10) by reflexivity.
  refine (proj1 (proj1 (proj2 (proj2
    (@add_click_outcome (q 10) (q 0) (q 0) (q 5) (q 8) (q 2)
       (q 0) (q 0) (q 0) (q 0) [] HL)))) _).
  cbn [valid_load]. repeat split; qc_cmp_closed.
Defined.

Lemma In_firstn_incl {A : Type} (n : nat) (l : list A) (x : A) :
  In x (firstn n l) -> In x l.
Proof.
  intros H. rewrite <- (firstn_skipn n l). apply in_or_app. now left.
Qed.

Lemma In_skipn_incl {A : Type} (n : nat) (l : list A) (x : A) :
  In x (skipn n l) -> In x l.
Proof.
  intros H. rewrite <- (firstn_skipn n l). apply in_or_app. now right.
Qed.

Lemma Forall_pop {A : Type} (P : A -> Prop) (i : nat) (l : list A) :
  Forall P l -> Forall P (firstn i l ++ skipn (S i) l).
Proof.
  intros H. rewrite Forall_forall in *. intros x Hx.
  apply in_app_or in Hx. destruct Hx as [Hx | Hx]; apply H.
  - eapply In_firstn_incl. exact Hx.
  - eapply In_skipn_incl. exact Hx.
Qed.

(** Whatever is clicked, on a beam of fixed length [L > 0], a list of loads
    that all lie on the beam stays one: a handler appends only such a load,
    a deletion removes one row, and "Clear All" empties the list. *)
Theorem clicks_keep_loads_valid (L : Qc) (loads_list loads' : list Load)
    (c : click) :
  0 < L ->
  Forall (valid_load L) loads_list ->
  on_click L loads_list c = Ret loads' ->
  Forall (valid_load L) loads'.
Proof.
  intros HL Hv. destruct c as [pm pl | um us ue | vm1 vm2 vs ve | i |];
    cbn [on_click].
  - intros [= <-].
    destruct (@add_point_outcome L pm pl loads_list HL) as [[-> Hl] | [msg ->]];
      cbn [fst]; [| exact Hv].
    apply Forall_app. split; [exact Hv | now constructor].
  - intros [= <-].
    destruct (@add_udl_outcome L um us ue loads_list HL)
      as [(s & e & -> & Hl) | [msg ->]]; cbn [fst]; [| exact Hv].
    apply Forall_app. split; [exact Hv | now constructor].
  - intros [= <-].
    destruct (@add_uvl_outcome L vm1 vm2 vs ve loads_list HL)
      as [(w1 & w2 & s & e & -> & Hl) | [msg ->]]; cbn [fst]; [| exact Hv].
    apply Forall_app. split; [exact Hv | now constructor].
  - unfold pop. destruct (Nat.ltb _ _); [| discriminate].
    intros [= <-]. now apply Forall_pop.
  - intros [= <-]. constructor.
Qed.

Lemma clicks_keep_loads_valid_witness :
  Forall (valid_load (q 10)) [UVL (q 10) (q 0) (q 2) (q 8)]%list.
Proof.
  apply (@clicks_keep_loads_valid (q 10) [] _
           (AddUVL (q 0) (q 10) (q 8) (q 2))).
  - reflexivity.
  - constructor.
  - reflexivity.
Defined.

(** ** The shape of the result *)

Lemma length_linspace (L : Qc) : List.length (linspace (fromZ 0) L 500) = 500%nat.
Proof. unfold linspace. now rewrite length_map, length_seq. Qed.

Lemma q499_neq_0 : q 499 <> 0.
Proof. qc_neq. Qed.

Lemma linspace_nth (L : Qc) (i : nat) :
  (i < 500)%nat ->
  nth_error (linspace (fromZ 0) L 500) i = Some (q (Z.of_nat i) * L / q 499).
Proof.
  intros Hi. unfold linspace. rewrite nth_error_map, nth_error_seq.
  rewrite (proj2 (Nat.ltb_lt _ _) Hi). cbn [option_map Nat.add Nat.sub].
  pose proof q499_neq_0 as H499. unfold q in *.
  change (Z.of_nat 499) with 499%Z. qc_norm.
  destruct (Nat.eqb_spec i 499) as [-> | Hne].
  - f_equal. change (Z.of_nat 499) with 499%Z. now field.
  - destruct (Qc_eqb _ _); f_equal; now field.
Qed.

(** The bridge from [Qc] to [Q], for order reasoning. *)
Lemma this_plus (a b : Qc) : (this (a + b) == this a + this b)%Q.
Proof. unfold Qcplus, Q2Qc. cbn [this]. apply Qred_correct. Qed.

Lemma this_mult (a b : Qc) : (this (a * b) == this a * this b)%Q.
Proof. unfold Qcmult, Q2Qc. cbn [this]. apply Qred_correct. Qed.

Lemma this_opp (a : Qc) : (this (- a) == - this a)%Q.
Proof. unfold Qcopp, Q2Qc. cbn [this]. apply Qred_correct. Qed.

Lemma this_minus (a b : Qc) : (this (a - b) == this a - this b)%Q.
Proof. unfold Qcminus. rewrite this_plus, this_opp. reflexivity. Qed.

Lemma this_inv (a : Qc) : (this (/ a) == / this a)%Q.
Proof. unfold Qcinv, Q2Qc. cbn [this]. apply Qred_correct. Qed.

Lemma this_div (a b : Qc) : (this (a / b) == this a / this b)%Q.
Proof. unfold Qcdiv. rewrite this_mult, this_inv. reflexivity. Qed.

Lemma this_q (z : Z) : (this (q z) == inject_Z z)%Q.
Proof. unfold q, Q2Qc. cbn [this]. apply Qred_correct. Qed.

Lemma Qc_eq_this (a b : Qc) : a = b <-> (this a == this b)%Q.
Proof. split; [intros ->; reflexivity | apply Qc_is_canon]. Qed.

Ltac qc2q :=
  unfold Qclt, Qcle in *;
  repeat match goal with
  | H : @eq Qc _ _ |- _ => apply Qc_eq_this in H
  | H : ~ @eq Qc _ _ |- _ => rewrite Qc_eq_this in H
  | |- @eq Qc _ _ => apply Qc_eq_this
  | |- ~ @eq Qc _ _ => rewrite Qc_eq_this
  end;
  repeat rewrite ?this_plus, ?this_minus, ?this_mult, ?this_div, ?this_opp,
    ?this_q in *;
  change (this (Q2Qc 0)) with 0%Q in *;
  change (this (Q2Qc 1)) with 1%Q in *.

Lemma station_positions (L : Qc) (i j : nat) :
  (i < j)%nat -> 0 < L ->
  q (Z.of_nat i) * L / q 499 < q (Z.of_nat j) * L / q 499.
Proof.
  intros Hij HL. qc2q.
  assert (Hz : (inject_Z (Z.of_nat i) < inject_Z (Z.of_nat j))%Q)
    by (rewrite <- Zlt_Qlt; lia).
  change (inject_Z 499) with (499 # 1)%Q.
  apply Qmult_lt_compat_r; [reflexivity |].
  apply Qmult_lt_compat_r; assumption.
Qed.

Lemma station_in_beam (L : Qc) (i : nat) :
  (i < 500)%nat -> 0 <= L ->
  0 <= q (Z.of_nat i) * L / q 499 /\ q (Z.of_nat i) * L / q 499 <= L.
Proof.
  intros Hi HL. qc2q.
  assert (H0 : (0 <= inject_Z (Z.of_nat i))%Q)
    by (change 0%Q with (inject_Z 0); rewrite <- Zle_Qle; lia).
  assert (H1 : (inject_Z (Z.of_nat i) <= 499 # 1)%Q)
    by (change (499 # 1)%Q with (inject_Z 499); rewrite <- Zle_Qle; lia).
  change (inject_Z 499) with (499 # 1)%Q.
  set (a := inject_Z (Z.of_nat i)) in *. set (l := this L) in *.
  split.
  - apply Qle_shift_div_l; [reflexivity |]. nra.
  - apply Qle_shift_div_r; [reflexivity |]. nra.
Qed.

(** A returning analysis has 500 stations, 500 shear samples and 500 moment
    samples.  The station [i] is [i * L / 499]: the first is 0, the last is
    [L], they increase strictly when [L > 0] and lie on the beam when
    [L >= 0]. *)
Theorem analysis_shape (L SupA SupB : Qc) (b_type : string)
    (loads : list Load) (r : Analysis) :
  calculate_analysis L SupA SupB b_type loads = Ret r ->
  List.length (out_x r) = 500%nat
  /\ List.length (out_V r) = 500%nat
  /\ List.length (out_M r) = 500%nat
  /\ (forall i, (i < 500)%nat ->
        nth_error (out_x r) i = Some (q (Z.of_nat i) * L / q 499))
  /\ nth_error (out_x r) 0 = Some 0
  /\ nth_error (out_x r) 499 = Some L
  /\ (0 < L -> forall i j xi xj,
        (i < j)%nat ->
        nth_error (out_x r) i = Some xi -> nth_error (out_x r) j = Some xj ->
        xi < xj)
  /\ (0 <= L -> forall i xi,
        nth_error (out_x r) i = Some xi -> 0 <= xi /\ xi <= L).
Proof.
  intros Hr. apply calculate_analysis_inv in Hr.
  destruct Hr as (VM & _ & Hx & HVM & HV & HM).
  apply mapM_length in HVM. rewrite HV, HM, !length_map, HVM, Hx.
  assert (Hlen := length_linspace L).
  assert (Hin : forall i xi, nth_error (linspace (fromZ 0) L 500) i = Some xi ->
                             (i < 500)%nat).
  { intros i xi H. rewrite <- Hlen. apply nth_error_Some. congruence. }
  repeat match goal with |- _ /\ _ => split end; try assumption.
  - intros i Hi. now apply linspace_nth.
  - apply linspace_first.
  - apply linspace_last.
  - intros HL i j xi xj Hij Hi Hj.
    pose proof (Hin _ _ Hj) as Hj500.
    rewrite linspace_nth in Hi by lia. rewrite linspace_nth in Hj by lia.
    injection Hi as <-. injection Hj as <-. now apply station_positions.
  - intros HL i xi Hi. pose proof (Hin _ _ Hi) as Hi500.
    rewrite linspace_nth in Hi by lia. injection Hi as <-.
    now apply station_in_beam.
Qed.

Lemma analysis_shape_witness :
  match calculate_analysis (q 10) (q 0) (q 10) "Simply Supported"
          [POINT (q 10) (q 5)] with
  | Ret r => List.length (out_M r) = 500%nat
  | Raise _ => False
  end.
Proof.
  destruct (calculate_analysis (q 10) (q 0) (q 10) "Simply Supported"
              [POINT (q 10) (q 5)]) as [r | ex] eqn:E.
  - apply (@analysis_shape _ _ _ _ _ _ E).
  - vm_compute in E. discriminate E.
Defined.

(** ** Stations that nothing has reached yet *)

Lemma station_before (SupA SupB Ra Rb Ma xi : Qc) (b_type : string)
    (loads : list Load) :
  xi <= SupA ->
  b_type = "Cantilever" \/ xi <= SupB ->
  Forall (fun l => xi <= load_start l) loads ->
  station SupA SupB b_type loads Ra Rb Ma xi = Ret (Finite 0, Finite 0).
Proof.
  intros HA HB Hl. unfold station, support_A, support_B. qc_norm.
  rewrite (Qc_ltb_false HA).
  assert (Hb : negb (String.eqb b_type "Cantilever") && Qc_ltb SupB xi = false).
  { destruct HB as [-> | HB]; [reflexivity |].
    rewrite (Qc_ltb_false HB). apply andb_false_r. }
  rewrite Hb. now apply foldM_not_engaged.
Qed.

(** At a station that is not past support A, nor past support B on a simply
    supported beam, nor past the start of any load, the shear and the moment
    are both 0.  This is so at the first station [x = 0] whenever the
    supports and the loads are at non-negative positions. *)
Theorem nothing_before_first_action (L SupA SupB : Qc) (b_type : string)
    (loads : list Load) (r : Analysis) :
  calculate_analysis L SupA SupB b_type loads = Ret r ->
  (forall i xi,
     nth_error (out_x r) i = Some xi ->
     xi <= SupA ->
     b_type = "Cantilever" \/ xi <= SupB ->
     Forall (fun l => xi <= load_start l) loads ->
     nth_error (out_V r) i = Some (Finite 0)
     /\ nth_error (out_M r) i = Some (Finite 0))
  /\ (0 <= SupA -> 0 <= SupB ->
      Forall (fun l => 0 <= load_start l) loads ->
      nth_error (out_V r) 0 = Some (Finite 0)
      /\ nth_error (out_M r) 0 = Some (Finite 0)).
Proof.
  intros Hr.
  assert (Hgen : forall i xi,
     nth_error (out_x r) i = Some xi ->
     xi <= SupA ->
     b_type = "Cantilever" \/ xi <= SupB ->
     Forall (fun l => xi <= load_start l) loads ->
     nth_error (out_V r) i = Some (Finite 0)
     /\ nth_error (out_M r) i = Some (Finite 0)).
  { intros i xi Hx HA HB Hl.
    destruct (calculate_analysis_station _ _ _ _ _ _ Hr Hx)
      as (v & m & Hs & HV & HM).
    rewrite (@station_before _ _ _ _ _ _ _ _ HA HB Hl) in Hs.
    injection Hs as <- <-. now split. }
  split; [exact Hgen |].
  intros HA HB Hl. apply (Hgen 0%nat 0); auto.
  destruct (calculate_analysis_inv _ _ _ _ _ Hr) as (_ & _ & -> & _).
  apply linspace_first.
Qed.

Lemma nothing_before_first_action_witness :
  match calculate_analysis (q 10) (q 0) (q 10) "Simply Supported"
          [POINT (q 10) (q 5)] with
  | Ret r => nth_error (out_V r) 0 = Some (Finite 0)
             /\ nth_error (out_M r) 0 = Some (Finite 0)
  | Raise _ => False
  end.
Proof.
  destruct (calculate_analysis (q 10) (q 0) (q 10) "Simply Supported"
              [POINT (q 10) (q 5)]) as [r | ex] eqn:E.
  - apply (proj2 (@nothing_before_first_action _ _ _ _ _ _ E)).
    + qc_cmp_closed.
    + qc_cmp_closed.
    + repeat constructor. cbn [load_start]. qc_cmp_closed.
  - vm_compute in E. discriminate E.
Defined.

(** ** No loads *)





(** ** Loads that never divide by zero *)

Lemma pymin_Qc_bounds (s xi e : Qc) :
  s < xi -> s < e -> s < pymin xi e /\ pymin xi e <= e.
Proof.
  intros Hx He. unfold pymin. qc_ops.
  destruct (Qc_ltb_spec e xi) as [H | H].
  - split; [assumption | apply Qcle_refl].
  - split; [assumption | now apply Qcnot_lt_le].
Qed.

(** Under a load of non-negative intensities, not both zero, the divisor of
    the centroid quotient is positive at every station past the start. *)
Lemma uvl_divisor_positive (xi w1 w2 s e : Qc) :
  s < e -> s < xi -> 0 <= w1 -> 0 <= w2 -> w1 <> 0 \/ w2 <> 0 ->
  0 < w1 + w_clip xi w1 w2 s e.
Proof.
  intros Hse Hsx H1 H2 Hw.
  destruct (pymin_Qc_bounds Hsx Hse) as [Hp1 Hp2].
  unfold w_clip. qc_ops. set (p := pymin xi e) in *.
  assert (Hw' : ~ (this w1 == 0)%Q \/ ~ (this w2 == 0)%Q).
  { destruct Hw as [H | H]; [left | right]; intros E; apply H;
      now apply Qc_is_canon. }
  clear Hw. qc2q.
  set (a := this w1) in *. set (b := this w2) in *.
  set (P := this p) in *. set (S := this s) in *. set (E := this e) in *.
  assert (Hlen : (0 < E - S)%Q) by lra.
  assert (Hr0 : (0 < (P - S) / (E - S))%Q)
    by (apply Qlt_shift_div_l; [exact Hlen | lra]).
  assert (Hr1 : ((P - S) / (E - S) <= 1)%Q)
    by (apply Qle_shift_div_r; [exact Hlen | lra]).
  set (r := ((P - S) / (E - S))%Q) in *.
  destruct Hw' as [Hn | Hn].
  - assert (Ha : (0 < a)%Q)
      by (destruct (Qlt_le_dec 0 a); [assumption | exfalso; apply Hn; lra]).
    nra.
  - assert (Hb : (0 < b)%Q)
      by (destruct (Qlt_le_dec 0 b); [assumption | exfalso; apply Hn; lra]).
    nra.
Qed.

Lemma load_step_finite (xi v m : Qc) (l : Load) :
  safe_load l ->
  exists v' m', load_step xi (Finite v, Finite m) l = Ret (Finite v', Finite m').
Proof.
  intros Hs. destruct l as [mag loc | mag s e | w1 w2 s e].
  - cbn [load_step]. destruct (ltb loc xi); do 2 eexists; reflexivity.
  - cbn [load_step]. destruct (ltb s xi); do 2 eexists; reflexivity.
  - cbn [safe_load] in Hs. destruct Hs as (Hse & H1 & H2 & Hw).
    destruct (Qc_ltb_spec s xi) as [Hsx | Hsx].
    + pose proof (uvl_divisor_positive Hse Hsx H1 H2 Hw) as Hpos.
      pose proof (@uvl_step_nonzero xi w1 w2 s e v m Hse Hsx) as Hstep.
      cbv zeta in Hstep. rewrite Hstep; [do 2 eexists; reflexivity |].
      intros E. rewrite E in Hpos. exact (Qclt_irrefl Hpos).
    + exists v, m. apply (@load_step_not_engaged xi (Finite v, Finite m)).
      cbn [load_start]. now apply Qcnot_lt_le.
Qed.

Lemma foldM_finite (xi : Qc) (loads : list Load) :
  Forall safe_load loads ->
  forall v m, exists v' m',
    foldM (load_step xi) loads (Finite v, Finite m) = Ret (Finite v', Finite m').
Proof.
  induction 1 as [| l loads Hl _ IH]; intros v m.
  - do 2 eexists; reflexivity.
  - destruct (@load_step_finite xi v m l Hl) as (v1 & m1 & E1).
    destruct (IH v1 m1) as (v2 & m2 & E2).
    exists v2, m2. cbn [foldM]. rewrite E1. exact E2.
Qed.

Lemma mapM_Forall {A B : Type} (f : A -> res B) (P : B -> Prop) (l : list A) :
  (forall a, exists b, f a = Ret b /\ P b) ->
  exists bs, mapM f l = Ret bs /\ Forall P bs.
Proof.
  intros Hf. induction l as [| a l IH].
  - exists []. split; [reflexivity | constructor].
  - destruct (Hf a) as (b & Hb & HP). destruct IH as (bs & Hbs & HPs).
    exists (b :: bs). split; [| now constructor].
    cbn [mapM]. now rewrite Hb, Hbs.
Qed.

(** The analysis of a cantilever, or of a beam on two distinct supports,
    returns, and every shear and moment sample is a number, whenever each
    linearly varying load runs over [start < end] with non-negative
    intensities that are not both zero.  Point and uniform loads are under no
    condition at all. *)
Theorem analysis_returns_finite (L SupA SupB : Qc) (b_type : string)
    (loads : list Load) :
  b_type = "Cantilever" \/ SupB <> SupA ->
  Forall safe_load loads ->
  exists r,
    calculate_analysis L SupA SupB b_type loads = Ret r
    /\ Forall is_finite (out_V r)
    /\ Forall is_finite (out_M r).
Proof.
  intros Hb Hs.
  assert (Hr : exists Ra Rb Ma,
             reactions SupA SupB b_type loads = Ret (Ra, Rb, Ma)).
  { destruct (String.eqb_spec b_type "Cantilever") as [-> | Hne].
    - rewrite reactions_cantilever. eauto.
    - destruct Hb as [Hb | Hb]; [contradiction |].
      rewrite (reactions_simply_supported _ Hne Hb). eauto. }
  destruct Hr as (Ra & Rb & Ma & Hr).
  destruct (@mapM_Forall _ _ (station SupA SupB b_type loads Ra Rb Ma)
              (fun vm => is_finite (fst vm) /\ is_finite (snd vm))
              (linspace (fromZ 0) L 500)) as (VM & HVM & HF).
  { intros xi. unfold station.
    destruct (support_B _ _ _ _ _) as [v_val m_val].
    destruct (@foldM_finite xi loads Hs v_val m_val) as (v' & m' & E).
    exists (Finite v', Finite m'). split; [exact E |].
    split; eexists; reflexivity. }
  eexists. split.
  { unfold calculate_analysis. rewrite Hr. cbn [bind]. rewrite HVM.
    cbn [bind]. reflexivity. }
  cbn [out_V out_M]. split; apply Forall_map;
    (eapply Forall_impl; [| exact HF]); intros vm [H1 H2]; assumption.
Qed.

Lemma analysis_returns_finite_witness :
  exists r,
    calculate_analysis (q 10) (q 0) (q 10) "Simply Supported"
      [UVL (q 0) (q 10) (q 2) (q 8)] = Ret r
    /\ Forall is_finite (out_M r).
Proof.
  destruct (@analysis_returns_finite (q 10) (q 0) (q 10) "Simply Supported"
              [UVL (q 0) (q 10) (q 2) (q 8)]) as (r & Hr & _ & HM).
  - right. qc_neq.
  - apply Forall_cons; [| apply Forall_nil]. cbn [safe_load].
    split; [qc_cmp_closed |]. split; [qc_cmp_closed |].
    split; [qc_cmp_closed |]. right. qc_neq.
  - exists r. now split.
Defined.

(** ** The far end of the beam *)

Lemma fold_sum_shift (g : Load (T:=Qc) -> Qc) (loads : list Load) :
  forall a c,
    fold_left (fun acc l => acc + g l) loads (a + c)
    = fold_left (fun acc l => acc + g l) loads a + c.
Proof.
  induction loads as [| l loads IH]; intros a c; cbn [fold_left].
  - reflexivity.
  - replace (a + c + g l) with ((a + g l) + c) by ring. apply IH.
Qed.

Lemma total_moment_shift (x : Qc) (loads : list Load) :
  forall M0 F0,
    total_moment_from x M0 loads
    = total_moment_from 0 M0 loads - (total_force_from F0 loads - F0) * x.
Proof.
  unfold total_moment_from, total_force_from.
  induction loads as [| l loads IH]; intros M0 F0; cbn [fold_left]; qc_ops.
  - ring.
  - rewrite (load_moment_shift x l).
    replace (M0 + (load_moment 0 l - load_force l * x))
      with ((M0 + load_moment 0 l) + - (load_force l * x)) by ring.
    rewrite fold_sum_shift.
    rewrite (IH (M0 + load_moment 0 l) (F0 + load_force l)). ring.
Qed.

Lemma load_step_end_moment (L v m : Qc) (l : Load) :
  valid_load L l -> untapered l ->
  exists v',
    load_step L (Finite v, Finite m) l
    = Ret (Finite v', Finite (m - (load_force l * L - load_moment 0 l)))
    /\ (~ acts_at L l -> v' = v - load_force l).
Proof.
  intros Hv Hu.
  assert (Hdec : acts_at L l \/ ~ acts_at L l).
  { destruct l as [mag loc | |]; cbn [acts_at]; [| now right | now right].
    destruct (Qc_eq_dec loc L); [now left | now right]. }
  destruct Hdec as [Ha | Ha].
  - destruct l as [mag loc | |]; cbn [acts_at] in Ha; try contradiction.
    subst loc. exists v. split; [| intros Hn; exfalso; now apply Hn].
    rewrite (@load_step_not_engaged L (Finite v, Finite m) (POINT mag L))
      by apply Qcle_refl.
    cbn [load_force load_moment]. qc_ops.
    apply f_equal, f_equal2; apply f_equal; ring.
  - exists (v - load_force l). split; [| reflexivity].
    now apply load_step_at_end.
Qed.

Lemma foldM_end_moment (L : Qc) (loads : list Load) :
  Forall (valid_load L) loads -> Forall untapered loads ->
  forall v m F0 M0,
  exists v',
    foldM (load_step L) loads (Finite v, Finite m)
    = Ret (Finite v',
           Finite (m - ((total_force_from F0 loads - F0) * L
                        - (total_moment_from 0 M0 loads - M0))))
    /\ (Forall (fun l => ~ acts_at L l) loads ->
        v' = v - (total_force_from F0 loads - F0)).
Proof.
  induction 1 as [| l loads Hl _ IH]; intros Hu v m F0 M0.
  - exists v. cbn [foldM total_force_from total_moment_from fold_left].
    split; [apply f_equal, f_equal2; apply f_equal; ring | intros _; ring].
  - inversion Hu as [| ? ? Hul Hus]; subst.
    destruct (@load_step_end_moment L v m l Hl Hul) as (v1 & E1 & Hv1).
    destruct (IH Hus v1 (m - (load_force l * L - load_moment 0 l))
                (F0 + load_force l) (M0 + load_moment 0 l))
      as (v2 & E2 & Hv2).
    exists v2. cbn [foldM]. rewrite E1. cbn [bind]. rewrite E2.
    unfold total_force_from, total_moment_from. cbn [fold_left]. qc_ops.
    split.
    + apply f_equal, f_equal2; apply f_equal; ring.
    + intros Ha. inversion Ha as [| ? ? Hal Has]; subst.
      rewrite (Hv2 Has), (Hv1 Hal).
      unfold total_force_from. qc_ops. ring.
Qed.

(** Over exact rationals, the bending moment closes at the far end.  For
    loads that lie on the beam (no linearly varying load with a taper or of
    zero intensity), with support A before the end, on a cantilever or on
    two distinct supports the second of which is not beyond the end, the
    analysis returns and the moment at the last station [x = L] is exactly
    0, point loads at [L] included.  The shear there is 0 as well when no
    point load sits at [L] and support B, if any, is before the end. *)
Theorem moment_closes_at_far_end (L SupA SupB : Qc) (b_type : string)
    (loads : list Load) :
  SupA < L ->
  b_type = "Cantilever" \/ (SupB <> SupA /\ SupB <= L) ->
  Forall (valid_load L) loads ->
  Forall untapered loads ->
  exists r,
    calculate_analysis L SupA SupB b_type loads = Ret r
    /\ nth_error (out_x r) 499 = Some L
    /\ nth_error (out_M r) 499 = Some (Finite 0)
    /\ (Forall (fun l => ~ acts_at L l) loads ->
        b_type = "Cantilever" \/ SupB < L ->
        nth_error (out_V r) 499 = Some (Finite 0)).
Proof.
  intros HA Hb Hv Hu.
  pose (F := total_force loads). pose (M0 := total_moment 0 loads).
  assert (HMA : total_moment SupA loads = M0 - F * SupA).
  { unfold M0, F, total_moment, total_force.
    rewrite (total_moment_shift SupA loads _ (fromZ 0)). qc_norm. ring. }
  assert (Hr : exists Ra Rb Ma,
      reactions SupA SupB b_type loads = Ret (Ra, Rb, Ma)
      /\ exists v0 m0,
           support_B SupB Rb b_type L
             (support_A SupA Ra Ma L (fromZ 0, fromZ 0)) = (v0, m0)
           /\ m0 = F * L - M0
           /\ (b_type = "Cantilever" \/ SupB < L -> v0 = F)).
  { destruct (String.eqb_spec b_type "Cantilever") as [-> | Hne].
    - exists F, 0, (total_moment SupA loads). split.
      + rewrite reactions_cantilever. reflexivity.
      + unfold support_A, support_B. qc_norm. rewrite (Qc_ltb_true HA).
        cbn [String.eqb Ascii.eqb Bool.eqb negb andb].
        do 2 eexists. split; [reflexivity |]. rewrite HMA.
        split; [ring | intros _; ring].
    - destruct Hb as [Hb | [Hsup HBL]]; [contradiction |].
      assert (Hd : SupB - SupA <> 0) by now rewrite Qcminus_eq_0.
      exists (F - total_moment SupA loads / (SupB - SupA)),
        (total_moment SupA loads / (SupB - SupA)), 0.
      split; [now apply reactions_simply_supported |].
      unfold support_A, support_B. qc_norm. rewrite (Qc_ltb_true HA).
      rewrite (not_cantilever Hne). cbn [negb andb].
      destruct (Qc_ltb_spec SupB L) as [HB | HB].
      + do 2 eexists. split; [reflexivity |]. rewrite HMA.
        split; [now field | intros _; now field].
      + assert (HBeq : SupB = L) by (apply Qcle_antisym;
          [assumption | now apply Qcnot_lt_le]).
        do 2 eexists. split; [reflexivity |]. rewrite HMA. subst SupB.
        split; [now field |].
        intros [Hc | Hlt]; [contradiction | exfalso; exact (HB Hlt)]. }
  destruct Hr as (Ra & Rb & Ma & Hr & v0 & m0 & Hsup & Hm0 & Hv0).
  destruct (@mapM_returns _ _ (station SupA SupB b_type loads Ra Rb Ma)
              (linspace (fromZ 0) L 500)) as (VM & HVM & Hnth).
  { intros xi. unfold station.
    destruct (support_B SupB Rb b_type xi _) as [v_val m_val].
    now apply (@foldM_returns L). }
  destruct (Hnth _ _ (linspace_last L)) as ([vL mL] & HbL & HsL).
  unfold station in HsL. rewrite Hsup in HsL.
  destruct (@foldM_end_moment L loads Hv Hu v0 m0 (fromZ 0) (fromZ 0))
    as (v' & Hfold & Hshear).
  rewrite Hfold in HsL. injection HsL as <- <-.
  eexists. split.
  { unfold calculate_analysis. rewrite Hr. cbn [bind]. rewrite HVM.
    cbn [bind]. reflexivity. }
  cbn [out_x out_V out_M]. rewrite !nth_error_map, HbL. cbn [option_map fst snd].
  split; [apply linspace_last |]. split.
  - do 2 f_equal. rewrite Hm0. unfold F, M0, total_force, total_moment.
    qc_norm. ring.
  - intros Ha Hpos. do 2 f_equal. rewrite (Hshear Ha), (Hv0 Hpos).
    unfold F, total_force. qc_norm. ring.
Qed.

Lemma moment_closes_at_far_end_witness :
  exists r,
    calculate_analysis (q 6) (q 0) (q 6) "Cantilever" [POINT (q 12) (q 6)]
    = Ret r
    /\ nth_error (out_M r) 499 = Some (Finite 0).
Proof.
  destruct (@moment_closes_at_far_end (q 6) (q 0) (q 6) "Cantilever"
              [POINT (q 12) (q 6)]) as (r & Hr & _ & HM & _).
  - reflexivity.
  - now left.
  - apply Forall_cons; [| apply Forall_nil]. cbn [valid_load].
    split; qc_cmp_closed.
  - apply Forall_cons; [exact I | apply Forall_nil].
  - exists r. now split.
Defined.

(** ** Superposition *)

Lemma sadd_comm (a b : sample (T:=Qc)) : sadd a b = sadd b a.
Proof.
  destruct a as [x |], b as [y |]; cbn [sadd lift2]; try reflexivity.
  qc_ops. f_equal. ring.
Qed.

Lemma ssub_sadd (c a d : sample (T:=Qc)) :
  ssub (sadd c a) d = sadd c (ssub a d).
Proof.
  destruct c as [z |], a as [x |], d as [y |]; cbn [sadd ssub lift2];
    try reflexivity.
  qc_ops. f_equal. ring.
Qed.

Lemma take_off_sadd (c1 c2 a1 a2 : sample (T:=Qc))
    (d : option (sample * sample)) :
  take_off (sadd c1 a1, sadd c2 a2) d
  = (sadd c1 (fst (take_off (a1, a2) d)), sadd c2 (snd (take_off (a1, a2) d))).
Proof.
  destruct d as [[dv dm] |]; cbn [take_off fst snd]; [| reflexivity].
  now rewrite !ssub_sadd.
Qed.

(** Shifting the accumulators shifts what the loop over the loads leaves. *)
Lemma foldM_translate (xi : Qc) (loads : list Load) :
  forall c1 c2 a1 a2,
    foldM (load_step xi) loads (sadd c1 a1, sadd c2 a2)
    = (r <- foldM (load_step xi) loads (a1, a2) ;;
       Ret (sadd c1 (fst r), sadd c2 (snd r))).
Proof.
  induction loads as [| l loads IH]; intros c1 c2 a1 a2; cbn [foldM].
  - reflexivity.
  - rewrite !load_step_effect.
    destruct (load_effect xi l) as [d | ex]; cbn [bind]; [| reflexivity].
    rewrite take_off_sadd. rewrite IH.
    destruct (take_off (a1, a2) d) as [b1 b2]. reflexivity.
Qed.

Lemma foldM_app {A B : Type} (f : A -> B -> res A) (l1 l2 : list B) (a : A) :
  foldM f (l1 ++ l2) a = (a' <- foldM f l1 a ;; foldM f l2 a').
Proof.
  revert a. induction l1 as [| b l1 IH]; intros a; cbn [foldM app].
  - reflexivity.
  - destruct (f a b) as [a1 | ex]; cbn [bind]; [apply IH | reflexivity].
Qed.

Lemma foldM_superpose (xi : Qc) (l1 l2 : list Load)
    (v1 m1 v2 m2 : Qc) (V1 M1 V2 M2 : sample) :
  foldM (load_step xi) l1 (Finite v1, Finite m1) = Ret (V1, M1) ->
  foldM (load_step xi) l2 (Finite v2, Finite m2) = Ret (V2, M2) ->
  foldM (load_step xi) (l1 ++ l2) (Finite (v1 + v2), Finite (m1 + m2))
  = Ret (sadd V1 V2, sadd M1 M2).
Proof.
  intros H1 H2. rewrite foldM_app.
  replace (Finite (v1 + v2)) with (sadd (Finite v2) (Finite v1))
    by (cbn [sadd lift2]; qc_ops; f_equal; ring).
  replace (Finite (m1 + m2)) with (sadd (Finite m2) (Finite m1))
    by (cbn [sadd lift2]; qc_ops; f_equal; ring).
  rewrite foldM_translate, H1. cbn [bind fst snd].
  rewrite (sadd_comm (Finite v2) V1), (sadd_comm (Finite m2) M1).
  rewrite foldM_translate, H2. reflexivity.
Qed.

Lemma supports_superpose (SupA SupB Ra1 Rb1 Ma1 Ra2 Rb2 Ma2 xi : Qc)
    (b_type : string) :
  let s1 := support_B SupB Rb1 b_type xi
              (support_A SupA Ra1 Ma1 xi (fromZ 0, fromZ 0)) in
  let s2 := support_B SupB Rb2 b_type xi
              (support_A SupA Ra2 Ma2 xi (fromZ 0, fromZ 0)) in
  support_B SupB (Rb1 + Rb2) b_type xi
    (support_A SupA (Ra1 + Ra2) (Ma1 + Ma2) xi (fromZ 0, fromZ 0))
  = (fst s1 + fst s2, snd s1 + snd s2).
Proof.
  unfold support_A, support_B. qc_norm.
  destruct (Qc_ltb SupA xi); destruct (negb _ && Qc_ltb SupB xi);
    cbn [fst snd]; f_equal; ring.
Qed.

Lemma station_superpose (SupA SupB Ra1 Rb1 Ma1 Ra2 Rb2 Ma2 xi : Qc)
    (b_type : string) (l1 l2 : list Load) (V1 M1 V2 M2 : sample) :
  station SupA SupB b_type l1 Ra1 Rb1 Ma1 xi = Ret (V1, M1) ->
  station SupA SupB b_type l2 Ra2 Rb2 Ma2 xi = Ret (V2, M2) ->
  station SupA SupB b_type (l1 ++ l2) (Ra1 + Ra2) (Rb1 + Rb2) (Ma1 + Ma2) xi
  = Ret (sadd V1 V2, sadd M1 M2).
Proof.
  unfold station.
  rewrite (supports_superpose SupA SupB Ra1 Rb1 Ma1 Ra2 Rb2 Ma2 xi b_type).
  cbv zeta.
  destruct (support_B SupB Rb1 b_type xi _) as [v1 m1].
  destruct (support_B SupB Rb2 b_type xi _) as [v2 m2].
  cbn [fst snd]. apply foldM_superpose.
Qed.

Lemma total_from_app (g : Load (T:=Qc) -> Qc) (l1 l2 : list Load) :
  fold_left (fun acc l => acc + g l) (l1 ++ l2) 0
  = fold_left (fun acc l => acc + g l) l1 0
    + fold_left (fun acc l => acc + g l) l2 0.
Proof.
  rewrite fold_left_app.
  replace (fold_left (fun acc l => acc + g l) l1 0)
    with (0 + fold_left (fun acc l => acc + g l) l1 0) at 1 by ring.
  rewrite fold_sum_shift. ring.
Qed.

Lemma reactions_superpose (SupA SupB Ra1 Rb1 Ma1 Ra2 Rb2 Ma2 : Qc)
    (b_type : string) (l1 l2 : list Load) :
  reactions SupA SupB b_type l1 = Ret (Ra1, Rb1, Ma1) ->
  reactions SupA SupB b_type l2 = Ret (Ra2, Rb2, Ma2) ->
  reactions SupA SupB b_type (l1 ++ l2)
  = Ret (Ra1 + Ra2, Rb1 + Rb2, Ma1 + Ma2).
Proof.
  unfold reactions. rewrite !load_sums_totals.
  assert (HF : total_force (l1 ++ l2) = total_force l1 + total_force l2)
    by apply (total_from_app load_force).
  assert (HM : total_moment SupA (l1 ++ l2)
               = total_moment SupA l1 + total_moment SupA l2)
    by apply (total_from_app (load_moment SupA)).
  rewrite HF, HM.
  destruct (String.eqb b_type "Cantilever").
  - intros [= <- <- <-] [= <- <- <-]. qc_norm.
    apply f_equal, f_equal2; [apply f_equal2 |]; try reflexivity; ring.
  - destruct (truediv (total_moment SupA l1) _) as [rb1 | ex] eqn:E1;
      cbn [bind]; [| discriminate].
    destruct (truediv (total_moment SupA l2) _) as [rb2 | ex] eqn:E2;
      cbn [bind]; [| discriminate].
    intros [= <- <- <-] [= <- <- <-].
    apply truediv_Qc_inv in E1, E2. destruct E1 as [Hd ->], E2 as [_ ->].
    qc_ops. rewrite (truediv_Qc _ Hd). cbn [bind]. qc_norm.
    apply f_equal, f_equal2; [apply f_equal2 |]; now field.
Qed.

Lemma mapM_superpose (f1 f2 f : Qc -> res (sample (T:=Qc) * sample (T:=Qc)))
    (xs : list Qc) :
  (forall x V1 M1 V2 M2,
     f1 x = Ret (V1, M1) -> f2 x = Ret (V2, M2) ->
     f x = Ret (sadd V1 V2, sadd M1 M2)) ->
  forall a b, mapM f1 xs = Ret a -> mapM f2 xs = Ret b ->
  exists c, mapM f xs = Ret c
            /\ map fst c = sadd_all (map fst a) (map fst b)
            /\ map snd c = sadd_all (map snd a) (map snd b).
Proof.
  intros Hf. induction xs as [| x xs IH]; intros a b; cbn [mapM].
  - intros [= <-] [= <-]. exists []. now repeat split.
  - destruct (f1 x) as [[V1 M1] | ex] eqn:E1; cbn [bind]; [| discriminate].
    destruct (mapM f1 xs) as [a' | ex]; cbn [bind]; [| discriminate].
    destruct (f2 x) as [[V2 M2] | ex] eqn:E2; cbn [bind]; [| discriminate].
    destruct (mapM f2 xs) as [b' | ex]; cbn [bind]; [| discriminate].
    intros [= <-] [= <-].
    destruct (IH a' b' eq_refl eq_refl) as (c & Hc & HV & HM).
    exists ((sadd V1 V2, sadd M1 M2) :: c).
    rewrite (Hf x V1 M1 V2 M2 E1 E2), Hc. cbn [bind map sadd_all fst snd].
    now rewrite HV, HM.
Qed.

(** The analysis is additive in the loads.  When the analyses of two load
    sets on the same beam both return, so does the analysis of the two sets
    together; its reactions are the sums of the reactions, and its shear and
    moment at every station are the sums of the shears and of the moments. *)
Theorem superposition (L SupA SupB : Qc) (b_type : string)
    (l1 l2 : list Load) (r1 r2 : Analysis) :
  calculate_analysis L SupA SupB b_type l1 = Ret r1 ->
  calculate_analysis L SupA SupB b_type l2 = Ret r2 ->
  exists r,
    calculate_analysis L SupA SupB b_type (l1 ++ l2) = Ret r
    /\ out_x r = out_x r1 /\ out_x r = out_x r2
    /\ out_Ra r = out_Ra r1 + out_Ra r2
    /\ out_Rb r = out_Rb r1 + out_Rb r2
    /\ out_Ma r = out_Ma r1 + out_Ma r2
    /\ out_V r = sadd_all (out_V r1) (out_V r2)
    /\ out_M r = sadd_all (out_M r1) (out_M r2).
Proof.
  intros H1 H2.
  apply calculate_analysis_inv in H1, H2.
  destruct H1 as (VM1 & Hr1 & Hx1 & HVM1 & HV1 & HM1).
  destruct H2 as (VM2 & Hr2 & Hx2 & HVM2 & HV2 & HM2).
  rewrite Hx1 in HVM1. rewrite Hx2 in HVM2.
  destruct (@mapM_superpose
              (station SupA SupB b_type l1 (out_Ra r1) (out_Rb r1) (out_Ma r1))
              (station SupA SupB b_type l2 (out_Ra r2) (out_Rb r2) (out_Ma r2))
              (station SupA SupB b_type (l1 ++ l2) (out_Ra r1 + out_Ra r2)
                 (out_Rb r1 + out_Rb r2) (out_Ma r1 + out_Ma r2))
              (linspace (fromZ 0) L 500)) with (a := VM1) (b := VM2)
    as (VM & HVM & HV & HM); try assumption.
  { intros x V1 M1 V2 M2. apply station_superpose. }
  eexists. split.
  { unfold calculate_analysis.
    rewrite (@reactions_superpose _ _ _ _ _ _ _ _ _ _ _ Hr1 Hr2). cbn [bind].
    rewrite HVM. cbn [bind]. reflexivity. }
  cbn [out_x out_V out_M out_Ra out_Rb out_Ma].
  rewrite Hx1, Hx2, HV, HM, HV1, HM1, HV2, HM2. now repeat split.
Qed.

Lemma superposition_witness :
  match calculate_analysis (q 10) (q 0) (q 10) "Simply Supported"
          [POINT (q 10) (q 5)],
        calculate_analysis (q 10) (q 0) (q 10) "Simply Supported"
          [UDL (q 5) (q 0) (q 10)] with
  | Ret r1, Ret r2 =>
      exists r,
        calculate_analysis (q 10) (q 0) (q 10) "Simply Supported"
          [POINT (q 10) (q 5); UDL (q 5) (q 0) (q 10)] = Ret r
        /\ out_M r = sadd_all (out_M r1) (out_M r2)
  | _, _ => False
  end.
Proof.
  destruct (calculate_analysis (q 10) (q 0) (q 10) "Simply Supported"
              [POINT (q 10) (q 5)]) as [r1 | ex] eqn:E1;
    [| vm_compute in E1; discriminate E1].
  destruct (calculate_analysis (q 10) (q 0) (q 10) "Simply Supported"
              [UDL (q 5) (q 0) (q 10)]) as [r2 | ex] eqn:E2;
    [| vm_compute in E2; discriminate E2].
  destruct (@superposition _ _ _ _ _ _ _ _ E1 E2) as (r & Hr & H).
  exists r. split; [exact Hr | apply H].
Defined.

(** ** A linearly varying load without taper *)

Lemma two_w_neq_0 (w : Qc) : w <> 0 -> w + w <> 0.
Proof.
  intros Hw E. assert (E2 : (1 + 1) * w = 0) by (rewrite <- E; ring).
  apply Qcmult_integral in E2. destruct E2 as [E2 | E2]; [| contradiction].
  revert E2. qc_neq.
Qed.

Lemma w_clip_uniform (xi w s e : Qc) : w_clip xi w w s e = w.
Proof. unfold w_clip. qc_ops. unfold Qcdiv. ring. Qed.

Lemma load_effect_uniform (xi w s e : Qc) :
  s < e -> w <> 0 ->
  load_effect xi (UVL w w s e) = load_effect xi (UDL w s e).
Proof.
  intros Hse Hw. unfold load_effect. cbn [load_start].
  destruct (Qc_ltb_spec s xi) as [Hsx | Hsx]; [| reflexivity].
  pose proof (@uvl_step_nonzero xi w w s e 0 0 Hse Hsx) as Hstep.
  cbv zeta in Hstep. rewrite w_clip_uniform in Hstep.
  rewrite (Hstep (two_w_neq_0 Hw)).
  cbn [load_step]. qc_norm. rewrite (Qc_ltb_true Hsx).
  cbn [bind fst snd ssub lift2]. qc_ops.
  pose proof (two_w_neq_0 Hw) as Hww.
  apply f_equal, f_equal, f_equal2; apply f_equal; apply f_equal; now field.
Qed.

Lemma add_load_uniform (SupA w s e : Qc) (acc : Qc * Qc) :
  add_load SupA acc (UVL w w s e) = add_load SupA acc (UDL w s e).
Proof.
  destruct acc as [m_sum f_sum]. rewrite !add_load_contribution.
  cbn [load_moment load_force]. unfold pymin. qc_norm.
  rewrite Qc_ltb_irrefl.
  replace (w - w) with 0 by ring.
  assert (Habs : Qcabs 0 = 0) by (apply Qcabs_pos, Qcle_refl).
  rewrite Habs. f_equal; now field.
Qed.

Lemma foldM_same_effect (xi : Qc) (loads loads' : list Load) :
  Forall2 same_effect loads loads' ->
  forall acc, foldM (load_step xi) loads acc = foldM (load_step xi) loads' acc.
Proof.
  induction 1 as [| l l' loads loads' Hl _ IH]; intros acc; [reflexivity |].
  cbn [foldM].
  assert (E : load_step xi acc l = load_step xi acc l').
  { destruct Hl as [l | w s e Hse Hw]; [reflexivity |].
    rewrite !load_step_effect. now rewrite load_effect_uniform. }
  rewrite E. destruct (load_step xi acc l'); cbn [bind]; [apply IH | reflexivity].
Qed.

Lemma load_sums_same_effect (SupA : Qc) (loads loads' : list Load) :
  Forall2 same_effect loads loads' ->
  load_sums SupA loads = load_sums SupA loads'.
Proof.
  intros H. unfold load_sums. generalize (@fromZ Qc _ 0, @fromZ Qc _ 0).
  induction H as [| l l' loads loads' Hl _ IH]; intros acc; [reflexivity |].
  cbn [fold_left].
  assert (E : add_load SupA acc l = add_load SupA acc l').
  { destruct Hl as [l | w s e Hse Hw]; [reflexivity |].
    apply add_load_uniform. }
  rewrite E. apply IH.
Qed.

(** Over exact rationals, a linearly varying load whose two end intensities
    are the same value [w <> 0], over [start < end], is the uniform load [w]
    over that range: the solver adds the same force and moment for it, the
    sampler takes the same shear and moment off at every station, and the
    analysis of a load set is unchanged when such loads are replaced by
    uniform ones. *)
Theorem untapered_uvl_is_udl (L SupA SupB : Qc) (b_type : string)
    (loads loads' : list Load) :
  Forall2 same_effect loads loads' ->
  (forall w s e acc,
     add_load SupA acc (UVL w w s e) = add_load SupA acc (UDL w s e))
  /\ (forall w s e xi acc, s < e -> w <> 0 ->
        load_step xi acc (UVL w w s e) = load_step xi acc (UDL w s e))
  /\ reactions SupA SupB b_type loads = reactions SupA SupB b_type loads'
  /\ calculate_analysis L SupA SupB b_type loads
     = calculate_analysis L SupA SupB b_type loads'.
Proof.
  intros H.
  assert (Hr : reactions SupA SupB b_type loads
               = reactions SupA SupB b_type loads')
    by (unfold reactions; now rewrite (load_sums_same_effect SupA H)).
  split; [intros w s e acc; apply add_load_uniform |].
  split; [| split; [exact Hr |]].
  - intros w s e xi acc Hse Hw.
    rewrite !load_step_effect. now rewrite load_effect_uniform.
  - unfold calculate_analysis. rewrite Hr.
    destruct (reactions SupA SupB b_type loads') as [[[Ra Rb] Ma] | ex];
      cbn [bind]; [| reflexivity].
    rewrite (@mapM_ext _ _ (station SupA SupB b_type loads Ra Rb Ma)
               (station SupA SupB b_type loads' Ra Rb Ma)); [reflexivity |].
    intros xi. unfold station.
    destruct (support_B SupB Rb b_type xi _) as [v_val m_val].
    now apply foldM_same_effect.
Qed.

Lemma untapered_uvl_is_udl_witness :
  calculate_analysis (q 10) (q 0) (q 10) "Simply Supported"
    [UVL (q 5) (q 5) (q 2) (q 8)]
  = calculate_analysis (q 10) (q 0) (q 10) "Simply Supported"
      [UDL (q 5) (q 2) (q 8)].
Proof.
  apply (@untapered_uvl_is_udl (q 10) (q 0) (q 10) "Simply Supported"
           [UVL (q 5) (q 5) (q 2) (q 8)] [UDL (q 5) (q 2) (q 8)]).
  constructor; [| constructor].
  apply same_uniform; [reflexivity | qc_neq].
Defined.

(** ** The moment of largest magnitude *)

Lemma max_abs_from_spec (M : list Qc) :
  forall best,
    let r := max_abs_from best M in
    Qcabs best <= Qcabs r
    /\ (forall x, In x M -> Qcabs x <= Qcabs r)
    /\ ((r = best /\ forall x, In x M -> Qcabs x <= Qcabs best)
        \/ (exists k, nth_error M k = Some r
                      /\ Qcabs best < Qcabs r
                      /\ forall j x, (j < k)%nat -> nth_error M j = Some x ->
                                     Qcabs x < Qcabs r)).
Proof.
  induction M as [| m M IH]; intros best; cbn [max_abs_from]; cbv zeta.
  - split; [apply Qcle_refl |]. split; [intros x [] |].
    left. split; [reflexivity | intros x []].
  - qc_ops. destruct (Qc_ltb_spec (Qcabs best) (Qcabs m)) as [Hlt | Hge].
    + destruct (IH m) as (H1 & H2 & H3). cbv zeta in *.
      set (r := max_abs_from m M) in *.
      split; [apply Qclt_le_weak; eapply Qclt_le_trans; eassumption |].
      split.
      * intros x [<- | Hx]; [exact H1 | now apply H2].
      * right. destruct H3 as [[Hr _] | (k & Hk & Hmr & Hearlier)].
        -- exists 0%nat. rewrite Hr. split; [reflexivity |].
           split; [exact Hlt | intros j x Hj; lia].
        -- exists (S k). split; [exact Hk |].
           split; [eapply Qclt_trans; eassumption |].
           intros [| j] x Hj Hx; cbn [nth_error] in Hx.
           ++ injection Hx as <-. exact Hmr.
           ++ apply (Hearlier j); [lia | exact Hx].
    + apply Qcnot_lt_le in Hge.
      destruct (IH best) as (H1 & H2 & H3). cbv zeta in *.
      set (r := max_abs_from best M) in *.
      split; [exact H1 |]. split.
      * intros x [<- | Hx]; [eapply Qcle_trans; eassumption | now apply H2].
      * destruct H3 as [[Hr Hall] | (k & Hk & Hbr & Hearlier)].
        -- left. split; [exact Hr |].
           intros x [<- | Hx]; [exact Hge | now apply Hall].
        -- right. exists (S k). split; [exact Hk |]. split; [exact Hbr |].
           intros [| j] x Hj Hx; cbn [nth_error] in Hx.
           ++ injection Hx as <-. eapply Qcle_lt_trans; eassumption.
           ++ apply (Hearlier j); [lia | exact Hx].
Qed.

(** [max(M, key=abs)] fails only on an empty sequence.  Otherwise it returns
    an item of [M] whose magnitude no item of [M] exceeds, and the first such
    item: every earlier item is strictly smaller in magnitude.  On the moments
    of a returning analysis, when they are all numbers, it does not fail. *)
Theorem max_abs_spec (M : list Qc) :
  (max_abs M = None <-> M = [])
  /\ (forall m, max_abs M = Some m ->
        exists i,
          nth_error M i = Some m
          /\ (forall x, In x M -> Qcabs x <= Qcabs m)
          /\ (forall j x, (j < i)%nat -> nth_error M j = Some x ->
                          Qcabs x < Qcabs m))
  /\ (forall L SupA SupB b_type loads r,
        calculate_analysis L SupA SupB b_type loads = Ret r ->
        out_M r = map Finite M ->
        exists m, max_abs M = Some m).
Proof.
  split; [| split].
  - destruct M; cbn [max_abs]; split; intros H; try reflexivity;
      discriminate H.
  - intros m Hm. destruct M as [| m0 M]; cbn [max_abs] in Hm; [discriminate |].
    injection Hm as <-.
    destruct (max_abs_from_spec M m0) as (H1 & H2 & H3). cbv zeta in *.
    set (r := max_abs_from m0 M) in *.
    destruct H3 as [[Hr Hall] | (k & Hk & Hbr & Hearlier)].
    + exists 0%nat. rewrite Hr. split; [reflexivity |]. split.
      * intros x [<- | Hx]; [apply Qcle_refl | now apply Hall].
      * intros j x Hj; lia.
    + exists (S k). split; [exact Hk |]. split.
      * intros x [<- | Hx]; [exact H1 | now apply H2].
      * intros [| j] x Hj Hx; cbn [nth_error] in Hx.
        -- injection Hx as <-. exact Hbr.
        -- apply (Hearlier j); [lia | exact Hx].
  - intros L SupA SupB b_type loads r Hr HM.
    apply calculate_analysis_inv in Hr.
    destruct Hr as (VM & _ & Hx & HVM & _ & HM').
    apply mapM_length in HVM. rewrite Hx, length_linspace in HVM.
    assert (Hlen : List.length M = 500%nat)
      by (rewrite <- (length_map Finite M), <- HM, HM', length_map; exact HVM).
    destruct M as [| m0 M]; [discriminate Hlen |].
    eexists. reflexivity.
Qed.

(** ** A complete linearly varying load, as the sampler sees it *)

(** Over exact rationals: at a station at or past the end of a linearly
    varying load over [start < end] with [w1 + w2 <> 0], the sampler takes
    off the force of the solver's rectangle-and-triangle decomposition, and
    a moment that exceeds the moment of that decomposition by
    [(e - s)^2 * (w2 - w1) / 6]; the two moments agree exactly when the load
    has no taper. *)
Theorem complete_uvl_moment_offset (xi w1 w2 s e v m : Qc) :
  s < e -> e <= xi -> w1 + w2 <> 0 ->
  load_step xi (Finite v, Finite m) (UVL w1 w2 s e)
  = Ret (Finite (v - load_force (UVL w1 w2 s e)),
         Finite (m - (- load_moment xi (UVL w1 w2 s e)
                      + (e - s) * (e - s) * (w2 - w1) / q 6)))
  /\ ((e - s) * (e - s) * (w2 - w1) / q 6 = 0 <-> w1 = w2).
Proof.
  intros Hse Hex Hw. split.
  - rewrite (uvl_sampler_vs_decomposition v m Hse Hex Hw).
    now rewrite uvl_decomposition_solver.
  - pose proof (Qclt_minus_neq_0 Hse) as Hlen.
    assert (H6 : q 6 <> 0) by qc_neq.
    split.
    + intros E.
      assert (E' : (e - s) * ((e - s) * (w2 - w1)) = 0).
      { replace ((e - s) * ((e - s) * (w2 - w1)))
          with ((e - s) * (e - s) * (w2 - w1) / q 6 * q 6) by now field.
        rewrite E. ring. }
      apply Qcmult_integral in E'. destruct E' as [E' | E']; [contradiction |].
      apply Qcmult_integral in E'. destruct E' as [E' | E']; [contradiction |].
      symmetry. now apply Qcminus_eq_0.
    + intros ->. now field.
Qed.

Lemma complete_uvl_moment_offset_witness :
  load_step (q 9) (Finite (q 0), Finite (q 0)) (UVL (q 0) (q 10) (q 2) (q 8))
  = Ret (Finite (q 0 - load_force (UVL (q 0) (q 10) (q 2) (q 8))),
         Finite (q 0 - (- load_moment (q 9) (UVL (q 0) (q 10) (q 2) (q 8))
                        + (q 8 - q 2) * (q 8 - q 2) * (q 10 - q 0) / q 6))).
Proof.
  apply (@complete_uvl_moment_offset (q 9) (q 0) (q 10) (q 2) (q 8) (q 0) (q 0)).
  - reflexivity.
  - qc_cmp_closed.
  - qc_neq.
Defined.

(** ** Stations that everything has been passed at *)

Lemma station_past (SupA SupB Ra Rb Ma xi : Qc) (b_type : string)
    (loads : list Load) :
  reactions SupA SupB b_type loads = Ret (Ra, Rb, Ma) ->
  SupA < xi ->
  b_type = "Cantilever" \/ SupB < xi ->
  Forall (valid_load xi) loads ->
  Forall (fun l => ~ acts_at xi l) loads ->
  Forall untapered loads ->
  station SupA SupB b_type loads Ra Rb Ma xi = Ret (Finite 0, Finite 0).
Proof.
  intros Hr HA HB Hv Ha Hu.
  assert (HMA : total_moment SupA loads
                = total_moment 0 loads - total_force loads * SupA).
  { unfold total_moment, total_force.
    rewrite (total_moment_shift SupA loads _ (fromZ 0)). qc_norm. ring. }
  unfold station, support_A, support_B. qc_norm. rewrite (Qc_ltb_true HA).
  destruct (reactions_inv _ _ _ _ Hr)
    as [(Hb & -> & -> & ->) | (Hb & Hd & -> & -> & ->)].
  - rewrite (proj2 (String.eqb_eq _ _) Hb). cbn [negb andb].
    rewrite (foldM_at_end Hv Ha Hu _ _ 0 0).
    change (total_force_from 0 loads) with (total_force loads).
    change (total_moment_from 0 0 loads) with (total_moment 0 loads).
    rewrite HMA.
    apply f_equal, f_equal2; apply f_equal; ring.
  - destruct HB as [HB | HB]; [contradiction |].
    rewrite (proj2 (String.eqb_neq _ _) Hb). cbn [negb andb].
    rewrite (Qc_ltb_true HB).
    rewrite (foldM_at_end Hv Ha Hu _ _ 0 0).
    change (total_force_from 0 loads) with (total_force loads).
    change (total_moment_from 0 0 loads) with (total_moment 0 loads).
    rewrite HMA.
    apply f_equal, f_equal2; apply f_equal; field; exact Hd.
Qed.

(** Over exact rationals: at a station past support A, past support B on a
    simply supported beam, and past every load (all loads lie on [0, x],
    none is a point load at [x], none is a linearly varying load with a
    taper or of zero intensity), the shear and the moment are both exactly
    0: an unloaded far part of the beam carries nothing. *)
Theorem nothing_after_last_action (L SupA SupB : Qc) (b_type : string)
    (loads : list Load) (r : Analysis) (i : nat) (xi : Qc) :
  calculate_analysis L SupA SupB b_type loads = Ret r ->
  nth_error (out_x r) i = Some xi ->
  SupA < xi ->
  b_type = "Cantilever" \/ SupB < xi ->
  Forall (valid_load xi) loads ->
  Forall (fun l => ~ acts_at xi l) loads ->
  Forall untapered loads ->
  nth_error (out_V r) i = Some (Finite 0)
  /\ nth_error (out_M r) i = Some (Finite 0).
Proof.
  intros Hr Hx HA HB Hv Ha Hu.
  destruct (calculate_analysis_station _ _ _ _ _ _ Hr Hx)
    as (v & m & Hs & HV & HM).
  apply calculate_analysis_inv in Hr. destruct Hr as (_ & Hreac & _).
  rewrite (@station_past _ _ _ _ _ _ _ _ Hreac HA HB Hv Ha Hu) in Hs.
  injection Hs as <- <-. now split.
Qed.

Lemma nothing_after_last_action_witness :
  match calculate_analysis (q 499) (q 0) (q 200) "Simply Supported"
          [POINT (q 10) (q 100)] with
  | Ret r => nth_error (out_V r) 300 = Some (Finite 0)
             /\ nth_error (out_M r) 300 = Some (Finite 0)
  | Raise _ => False
  end.
Proof.
  destruct (calculate_analysis (q 499) (q 0) (q 200) "Simply Supported"
              [POINT (q 10) (q 100)]) as [r | ex] eqn:E.
  - apply (@nothing_after_last_action _ _ _ _ _ _ 300 (q 300) E).
    + apply calculate_analysis_inv in E. destruct E as (_ & _ & -> & _).
      rewrite linspace_nth by lia. f_equal. apply Qc_is_canon. reflexivity.
    + reflexivity.
    + right. reflexivity.
    + apply Forall_cons; [| apply Forall_nil]. cbn [valid_load].
      split; qc_cmp_closed.
    + apply Forall_cons; [| apply Forall_nil]. cbn [acts_at]. qc_neq.
    + apply Forall_cons; [exact I | apply Forall_nil].
  - vm_compute in E. discriminate E.
Defined.

(** ** The cantilever, in any arithmetic *)

Section GenericCantilever.

Context {T : Type} `{NumT : Num T}.

Lemma station_cantilever (SupA SupB SupB' Ra Rb Rb' Ma xi : T)
    (loads : list Load) :
  station SupA SupB "Cantilever" loads Ra Rb Ma xi
  = station SupA SupB' "Cantilever" loads Ra Rb' Ma xi.
Proof.
  unfold station, support_B.
  destruct (support_A SupA Ra Ma xi _) as [v_val m_val]. reflexivity.
Qed.

(** In any arithmetic, binary64 included, the analysis of a cantilever never
    raises in the solver, which returns [Ra = F], [Rb = 0], [Ma = M]; the
    position of support B has no effect on any part of the result; and the
    page passes the beam length in its place. *)
Theorem cantilever_ignores_support_B (L SupA SupB SupB' : T)
    (loads : list Load) :
  reactions SupA SupB "Cantilever" loads
  = Ret (total_force loads, fromZ 0, total_moment SupA loads)
  /\ calculate_analysis L SupA SupB "Cantilever" loads
     = calculate_analysis L SupA SupB' "Cantilever" loads
  /\ run_analysis "Cantilever" L SupA SupB loads
     = calculate_analysis L SupA L "Cantilever" loads.
Proof.
  split; [apply reactions_cantilever |]. split; [| reflexivity].
  unfold calculate_analysis. rewrite !reactions_cantilever. cbn [bind].
  rewrite (@mapM_ext _ _
             (station SupA SupB "Cantilever" loads (total_force loads)
                (fromZ 0) (total_moment SupA loads))
             (station SupA SupB' "Cantilever" loads (total_force loads)
                (fromZ 0) (total_moment SupA loads))); [reflexivity |].
  intros xi. apply station_cantilever.
Qed.

End GenericCantilever.
